(** * pyphi.subsystem_2_0 : integrated information (IIT 2.0)

    A shallow embedding of [pyphi/subsystem_2_0.py]: partitions of a node
    set, the minimum-information-partition record with its ordering, and
    the subsystem operations that score partitions and pick the minimum.

    Python values are embedded as follows.
    - node identifiers are Python ints: [Z];
    - a group (a tuple of ints) is a [list Z], a tuple of groups a
      [list (list Z)];
    - code that can raise returns in the monad [M], which also records
      the repertoire computations that were requested;
    - the causal model, the array product and the entropy primitive live
      outside the module and are parameters of the subsystem section;
    - comparisons are between values of one type, so the same-type guard
      of [__eq__] and [__lt__] always passes. *)

From Stdlib Require Import List ZArith Bool Lia Permutation Sorted.
From Stdlib Require Import QArith.
From Stdlib Require Import Reals Lqa Lra.
Import ListNotations.

Set Implicit Arguments.
Local Open Scope Z_scope.

(** ** Exceptions, results and the trace monad *)

Inductive exn : Type :=
| AssertionError
| TypeError
| ValueError.

Inductive result (A : Type) : Type :=
| Ok (a : A)
| Raise (e : exn).

Arguments Ok {A} a.
Arguments Raise {A} e.

(** Requests made to the collaborators that build repertoires. *)
Inductive event : Type :=
| PosteriorComputed (mechanism : list Z)
| PriorComputed (mechanism : list Z).

(** A computation yields the requests it made, in order, and a result. *)
Definition M (A : Type) : Type := (list event * result A)%type.

Definition ret {A} (a : A) : M A := ([], Ok a).
Definition raise {A} (e : exn) : M A := ([], Raise e).
Definition tell (ev : event) : M unit := ([ev], Ok tt).

Definition bind {A B} (m : M A) (f : A -> M B) : M B :=
  match m with
  | (t, Ok a) => let (t', r) := f a in (t ++ t', r)
  | (t, Raise e) => (t, Raise e)
  end.

Notation "x <- c1 ;; c2" := (bind c1 (fun x => c2))
  (at level 61, c1 at next level, right associativity).
Notation "c1 ;;; c2" := (bind c1 (fun _ => c2))
  (at level 61, right associativity).

Definition trace {A} (m : M A) : list event := fst m.
Definition outcome {A} (m : M A) : result A := snd m.

(** [assert c] *)
Definition py_assert (c : bool) : M unit :=
  if c then ret tt else raise AssertionError.

(** Running a computation for each element of a list, left to right. *)
Fixpoint mapM {A B} (f : A -> M B) (l : list A) : M (list B) :=
  match l with
  | [] => ret []
  | x :: l' => y <- f x ;; ys <- mapM f l' ;; ret (y :: ys)
  end.

(** ** Python built-ins on tuples and lists *)

(** [a == b] on tuples of ints. *)
Fixpoint tuple_eqb (a b : list Z) : bool :=
  match a, b with
  | [], [] => true
  | x :: a', y :: b' => (x =? y) && tuple_eqb a' b'
  | _, _ => false
  end.

(** [a < b] on tuples of ints: the first differing position decides,
    and a proper prefix is smaller. *)
Fixpoint tuple_ltb (a b : list Z) : bool :=
  match a, b with
  | [], [] => false
  | [], _ :: _ => true
  | _ :: _, [] => false
  | x :: a', y :: b' => if x =? y then tuple_ltb a' b' else x <? y
  end.

(** [a == b] on tuples of tuples of ints. *)
Fixpoint parts_eqb (a b : list (list Z)) : bool :=
  match a, b with
  | [], [] => true
  | x :: a', y :: b' => tuple_eqb x y && parts_eqb a' b'
  | _, _ => false
  end.

(** [sorted(l)]: a stable sort that only asks [<] of its elements. *)
Section Sorted.
Variable A : Type.
Variable ltb : A -> A -> bool.

Fixpoint insert (x : A) (l : list A) : list A :=
  match l with
  | [] => [x]
  | y :: l' => if ltb y x then y :: insert x l' else x :: y :: l'
  end.

Fixpoint sorted (l : list A) : list A :=
  match l with
  | [] => []
  | x :: l' => insert x (sorted l')
  end.

(** [x] may stand before [y] in a sorted list. *)
Definition before (x y : A) : Prop := ltb y x = false.
End Sorted.

(** [functools.reduce(f, l)] with no initial value. *)
Definition reduce {A} (f : A -> A -> A) (l : list A) : M A :=
  match l with
  | [] => raise TypeError
  | x :: l' => ret (fold_left f l' x)
  end.

(** [min(it)]: the items of [it] are produced one at a time; a later item
    replaces the current one only when it is strictly smaller. *)
Section Min.
Variable A : Type.
Variable lt : A -> A -> M bool.

Fixpoint min_loop (best : A) (it : list (M A)) : M A :=
  match it with
  | [] => ret best
  | next :: it' =>
      item <- next ;;
      smaller <- lt item best ;;
      min_loop (if smaller then item else best) it'
  end.

Definition py_min (it : list (M A)) : M A :=
  match it with
  | [] => raise ValueError
  | next :: it' => first <- next ;; min_loop first it'
  end.
End Min.

(** The item [min] ends with, when every comparison returns a bool. *)
Fixpoint min_from {A} (ltb : A -> A -> bool) (best : A) (vals : list A) : A :=
  match vals with
  | [] => best
  | v :: vals' => min_from ltb (if ltb v best then v else best) vals'
  end.

(** ** Partition *)

Record Partition : Type := mkPartition { parts : list (list Z) }.

(** The constructor: the groups are stored sorted. *)
Definition Partition_new (ps : list (list Z)) : Partition :=
  {| parts := sorted tuple_ltb ps |}.

(** [len(self)] *)
Definition Partition_len (p : Partition) : nat := length (parts p).

(** [self == other] *)
Definition Partition_eq (p q : Partition) : bool := parts_eqb (parts p) (parts q).

(** [hash(self)], for any hash of tuples. *)
Definition Partition_hash (hash : list (list Z) -> Z) (p : Partition) : Z :=
  hash (parts p).

(** [self.indices] *)
Definition indices (p : Partition) : list Z := sorted Z.ltb (concat (parts p)).

(** [self.is_total] *)
Definition is_total (p : Partition) : bool := (Partition_len p =? 1)%nat.

(** [self.normalization] *)
Definition normalization (p : Partition) : M Z :=
  if is_total p then ret (Z.of_nat (length (indices p)))
  else
    let k := Z.of_nat (Partition_len p) - 1 in
    m <- py_min (fun a b => ret (a <? b))
                (map (fun g => ret (Z.of_nat (length g))) (parts p)) ;;
    ret (k * m).

(** The normalization of a partition that has one. *)
Definition norm_of (p : Partition) : Z :=
  match outcome (normalization p) with
  | Ok n => n
  | Raise _ => 0%Z
  end.

(** *** The sequence protocol *)

(** The result of indexing: an item, or IndexError. *)
Inductive lookup (A : Type) : Type :=
| Found (a : A)
| IndexError.

Arguments Found {A} a.
Arguments IndexError {A}.

(** [t[x]] on a tuple, for an int [x]: a negative index counts from the
    end. *)
Definition tuple_getitem {A} (t : list A) (x : Z) : lookup A :=
  let n := Z.of_nat (length t) in
  let i := if x <? 0 then x + n else x in
  if (i <? 0) || (n <=? i) then IndexError
  else match nth_error t (Z.to_nat i) with
       | Some a => Found a
       | None => IndexError
       end.

(** [self[x]] *)
Definition Partition_getitem (p : Partition) (x : Z) : lookup (list Z) :=
  tuple_getitem (parts p) x.

(** [iter(self)], as [collections.abc.Sequence] gives it: the items
    [self[i]], [self[i + 1]], ... up to the first IndexError.  The result
    is [None] when [fuel] items did not reach it. *)
Fixpoint Sequence_iter {A} (fuel : nat) (getitem : Z -> lookup A) (i : Z)
  : option (list A) :=
  match fuel with
  | O => None
  | S fuel' =>
      match getitem i with
      | IndexError => Some []
      | Found v =>
          match Sequence_iter fuel' getitem (i + 1) with
          | Some vs => Some (v :: vs)
          | None => None
          end
      end
  end.

(** ** Enumerating partitions *)

(** [(i >> n) & 1] *)
Definition bit (i : Z) (n : nat) : Z := Z.land (Z.shiftr i (Z.of_nat n)) 1.

(** Modelled from the spec: [pyphi.partition.bipartition_indices] is not
    among the sources.  Every way to split the positions [0 .. N-1] in two,
    an unordered pair once: the mask [i] runs over [0 .. 2^(N-1) - 1], the
    positions whose bit is set form the first part and the others the
    second; mask [0] gives the pair with an empty first part.  The empty
    sequence has no split. *)
Definition bipartition_indices (N : nat) : list (list nat * list nat) :=
  match N with
  | O => []
  | S N' =>
      map (fun i : nat =>
             (filter (fun n => bit (Z.of_nat i) n =? 1) (seq 0 N),
              filter (fun n => bit (Z.of_nat i) n =? 0) (seq 0 N)))
          (seq 0 (2 ^ N'))
  end.

(** Modelled from the spec: [pyphi.partition.bipartition] is not among the
    sources.  Every way to split the sequence in two disjoint parts whose
    union is the whole sequence, each part in the order of the sequence. *)
Definition bipartition (sq : list Z) : list (list Z * list Z) :=
  map (fun part : list nat * list nat =>
         (map (fun i => nth i sq 0) (fst part),
          map (fun j => nth j sq 0) (snd part)))
      (bipartition_indices (length sq)).

(** [generate_partitions(node_indices)]: a pair with an empty first part
    becomes the total partition. *)
Definition generate_partitions (node_indices : list Z) : list Partition :=
  map (fun partition : list Z * list Z =>
         if tuple_eqb (fst partition) []
         then Partition_new [snd partition]
         else Partition_new [fst partition; snd partition])
      (bipartition node_indices).

(** *** The enumeration, mask by mask *)

(** The items of [l] at the positions that satisfy [f]. *)
Definition pick (f : nat -> bool) (l : list Z) : list Z :=
  map (fun i => nth i l 0%Z) (filter f (seq 0 (length l))).

(** The mask [i] as a predicate on positions. *)
Definition mask (i : nat) (n : nat) : bool := Z.testbit (Z.of_nat i) (Z.of_nat n).

(** The partition that mask [i] gives. *)
Definition partition_of (sq : list Z) (i : nat) : Partition :=
  if tuple_eqb (pick (mask i) sq) []
  then Partition_new [pick (fun n => negb (mask i n)) sq]
  else Partition_new [pick (mask i) sq; pick (fun n => negb (mask i n)) sq].

(** ** Numbers

    Effective information is a Python number.  The module compares such
    numbers with [==] and [<] and divides them by an int, which for the
    floating-point scalars of the entropy primitive never raises; the laws
    say that [<] is a strict total order up to [==], which holds of every
    number a relative entropy can be except NaN.  Division is the
    division of numbers by a divisor of at least 1, the normalization of a
    generated partition: dividing by 0 gives NaN or an infinity, or
    raises, and the laws say nothing of it. *)
Class Number (num : Type) : Type := {
  num_eqb : num -> num -> bool;
  num_ltb : num -> num -> bool;
  num_div : num -> Z -> num;
  num_eqb_refl : forall a, num_eqb a a = true;
  num_eqb_sym : forall a b, num_eqb a b = num_eqb b a;
  num_eqb_trans : forall a b c,
      num_eqb a b = true -> num_eqb b c = true -> num_eqb a c = true;
  num_ltb_irrefl : forall a b, num_eqb a b = true -> num_ltb a b = false;
  num_ltb_trans : forall a b c,
      num_ltb a b = true -> num_ltb b c = true -> num_ltb a c = true;
  num_ltb_total : forall a b,
      num_eqb a b = false -> num_ltb a b = false -> num_ltb b a = true;
  num_ltb_eqb_l : forall a b c, num_eqb a b = true -> num_ltb a c = num_ltb b c;
  num_ltb_eqb_r : forall a b c, num_eqb a b = true -> num_ltb c a = num_ltb c b
}.

(** [a < b] on pairs of numbers. *)
Definition key_ltb {num} `{Number num} (a b : num * num) : bool :=
  if negb (num_eqb (fst a) (fst b)) then num_ltb (fst a) (fst b)
  else if negb (num_eqb (snd a) (snd b)) then num_ltb (snd a) (snd b)
  else false.

(** Rational numbers are numbers. *)
Definition Q_ltb (a b : Q) : bool := negb (Qle_bool b a).
Definition Q_div (a : Q) (n : Z) : Q := (a / inject_Z n)%Q.

#[export, refine] Instance Q_Number : Number Q :=
  {| num_eqb := Qeq_bool; num_ltb := Q_ltb; num_div := Q_div |}.
Proof.
  all: unfold Q_ltb; intros.
  - apply Qeq_bool_iff. reflexivity.
  - destruct (Qeq_bool a b) eqn:E, (Qeq_bool b a) eqn:E'; try reflexivity.
    + apply Qeq_bool_iff in E. apply Qeq_bool_neq in E'. now symmetry in E.
    + apply Qeq_bool_iff in E'. apply Qeq_bool_neq in E. now symmetry in E'.
  - rewrite Qeq_bool_iff in *. Lqa.lra.
  - rewrite negb_false_iff, Qle_bool_iff. rewrite Qeq_bool_iff in *. Lqa.lra.
  - rewrite negb_true_iff in *. rewrite <- not_true_iff_false, Qle_bool_iff in *.
    Lqa.lra.
  - rewrite negb_false_iff, negb_true_iff in *.
    apply Qeq_bool_neq in H. rewrite Qle_bool_iff in H0.
    rewrite <- not_true_iff_false, Qle_bool_iff. intros ?. apply H. Lqa.lra.
  - rewrite Qeq_bool_iff in *. f_equal.
    destruct (Qle_bool c a) eqn:E1, (Qle_bool c b) eqn:E2; try reflexivity;
      rewrite <- ?not_true_iff_false, Qle_bool_iff in *; exfalso; Lqa.lra.
  - rewrite Qeq_bool_iff in *. f_equal.
    destruct (Qle_bool a c) eqn:E1, (Qle_bool b c) eqn:E2; try reflexivity;
      rewrite <- ?not_true_iff_false, Qle_bool_iff in *; exfalso; Lqa.lra.
Defined.

(** ** The subsystem and its minimum-information partition *)

Section Subsystem.
(** The network, the arrays that hold repertoires and the numbers that
    measure them are those of the collaborators. *)
Variables Network repertoire num : Type.
Context `{Number num}.

(** [pyphi.Subsystem(network, state, node_indices, _external_indices=())
    .cause_repertoire(mechanism, purview)] *)
Variable cause_repertoire :
  Network -> list Z -> list Z -> list Z -> list Z -> repertoire.
(** [max_entropy_distribution(node_indices, number_of_nodes)] *)
Variable max_entropy_distribution : list Z -> nat -> repertoire.
(** [np.multiply] *)
Variable multiply : repertoire -> repertoire -> repertoire.
(** [entropy(pk, qk)], in bits *)
Variable entropy : repertoire -> repertoire -> num.

Record Subsystem_2_0 : Type := mkSubsystem {
  network : Network;
  state : list Z;
  node_indices : list Z
}.

(** [len(self)] *)
Definition Subsystem_len (self : Subsystem_2_0) : nat :=
  length (node_indices self).

Definition default_mechanism (self : Subsystem_2_0)
           (mechanism : option (list Z)) : list Z :=
  match mechanism with
  | None => node_indices self
  | Some m => m
  end.

Definition prior_repertoire (self : Subsystem_2_0)
           (mechanism : option (list Z)) : M repertoire :=
  let mechanism := default_mechanism self mechanism in
  tell (PriorComputed mechanism) ;;;
  ret (max_entropy_distribution mechanism (Subsystem_len self)).

Definition posterior_repertoire (self : Subsystem_2_0)
           (mechanism : option (list Z)) : M repertoire :=
  let mechanism := default_mechanism self mechanism in
  tell (PosteriorComputed mechanism) ;;;
  ret (cause_repertoire (network self) (state self) (node_indices self)
                        mechanism mechanism).

Definition partitioned_posterior_repertoire (self : Subsystem_2_0)
           (partition : Partition) : M repertoire :=
  rs <- mapM (fun mechanism => posterior_repertoire self (Some mechanism))
             (parts partition) ;;
  reduce multiply rs.

Definition effective_information (self : Subsystem_2_0)
           (mechanism : option (list Z)) : M num :=
  pk <- posterior_repertoire self mechanism ;;
  qk <- prior_repertoire self mechanism ;;
  ret (entropy pk qk).

Definition effective_information_partition (self : Subsystem_2_0)
           (partition : Partition) : M num :=
  py_assert (tuple_eqb (indices partition) (node_indices self)) ;;;
  if is_total partition then effective_information self None
  else
    pk <- posterior_repertoire self None ;;
    qk <- partitioned_posterior_repertoire self partition ;;
    ret (entropy pk qk).

Record Mip_2_0 : Type := mkMip {
  ei : num;
  partition : Partition;
  subsystem : Subsystem_2_0
}.

(** [self.ei_normalized] *)
Definition ei_normalized (self : Mip_2_0) : M num :=
  n <- normalization (partition self) ;;
  ret (num_div (ei self) n).

(** [self == other] *)
Definition Mip_eq (self other : Mip_2_0) : bool :=
  num_eqb (ei self) (ei other) && Partition_eq (partition self) (partition other).

(** [self < other] *)
Definition Mip_lt (self other : Mip_2_0) : M bool :=
  a <- ei_normalized self ;;
  b <- ei_normalized other ;;
  ret (key_ltb (a, ei self) (b, ei other)).

Definition find_mip (self : Subsystem_2_0) : M Mip_2_0 :=
  py_min Mip_lt
    (map (fun partition =>
            e <- effective_information_partition self partition ;;
            ret (mkMip e partition self))
         (generate_partitions (node_indices self))).

(** [self.phi()] *)
Definition phi (self : Subsystem_2_0) : M num :=
  m <- find_mip self ;; ret (ei m).

(** The comparisons that [functools.total_ordering] derives from [<]
    and [==]. *)

(** [self != other] *)
Definition Mip_ne (self other : Mip_2_0) : bool := negb (Mip_eq self other).

(** [self > other]: [not self < other and self != other] *)
Definition Mip_gt (self other : Mip_2_0) : M bool :=
  op_result <- Mip_lt self other ;;
  ret (negb op_result && Mip_ne self other).

(** [self <= other]: [self < other or self == other] *)
Definition Mip_le (self other : Mip_2_0) : M bool :=
  op_result <- Mip_lt self other ;;
  ret (op_result || Mip_eq self other).

(** [self >= other]: [not self < other] *)
Definition Mip_ge (self other : Mip_2_0) : M bool :=
  op_result <- Mip_lt self other ;;
  ret (negb op_result).

(** *** What the operations compute on well-formed input *)

(** The posterior repertoire of a mechanism, as the causal model gives it. *)
Definition posterior_of (self : Subsystem_2_0) (mechanism : list Z) : repertoire :=
  cause_repertoire (network self) (state self) (node_indices self)
                   mechanism mechanism.

(** The product of the posterior repertoires of the groups. *)
Definition product_of (self : Subsystem_2_0) (g : list Z) (gs : list (list Z))
  : repertoire :=
  fold_left multiply (map (posterior_of self) gs) (posterior_of self g).

(** The effective information across a partition that passes the check. *)
Definition ei_of (self : Subsystem_2_0) (p : Partition) : num :=
  if is_total p
  then entropy (posterior_of self (node_indices self))
               (max_entropy_distribution (node_indices self) (Subsystem_len self))
  else match parts p with
       | [] => entropy (posterior_of self (node_indices self))
                       (posterior_of self (node_indices self))
       | g :: gs => entropy (posterior_of self (node_indices self))
                            (product_of self g gs)
       end.

(** The pair that [__lt__] compares. *)
Definition mip_key (m : Mip_2_0) : num * num :=
  (num_div (ei m) (norm_of (partition m)), ei m).

Definition mip_ltb (a b : Mip_2_0) : bool := key_ltb (mip_key a) (mip_key b).

(** The record that [find_mip] builds for a partition. *)
Definition mip_of (self : Subsystem_2_0) (p : Partition) : Mip_2_0 :=
  mkMip (ei_of self p) p self.

(** The items that [min] receives in [find_mip]. *)
Definition mip_items (self : Subsystem_2_0) (ps : list Partition) : list (M Mip_2_0) :=
  map (fun p => e <- effective_information_partition self p ;; ret (mkMip e p self)) ps.
End Subsystem.

(** ** Relative entropy over the real numbers *)

(** A real number or plus infinity. *)
Inductive xreal : Type :=
| Finite (r : R)
| Infinite.

Definition xplus (a b : xreal) : xreal :=
  match a, b with
  | Finite x, Finite y => Finite (x + y)
  | _, _ => Infinite
  end.

Definition xdiv (a : xreal) (c : R) : xreal :=
  match a with
  | Finite x => Finite (x / c)
  | Infinite => Infinite
  end.

Definition Rsum (l : list R) : R := fold_right Rplus 0%R l.

Definition xsum (l : list xreal) : xreal := fold_right xplus (Finite 0) l.

(** Modelled from the spec: the relative-entropy primitive behind
    [entropy] is not among the sources.  One term of the relative entropy:
    [x log (x / y)] for positive [x] and [y], [0] for [x = 0] and
    [y >= 0], infinite otherwise. *)
Definition rel_entr (x y : R) : xreal :=
  if Rlt_dec 0 x then
    if Rlt_dec 0 y then Finite (x * ln (x / y)) else Infinite
  else if Req_dec_T x 0 then
    if Rle_dec 0 y then Finite 0 else Infinite
  else Infinite.

(** An array scaled to sum 1. *)
Definition normalize (pk : list R) : list R := map (fun x => (x / Rsum pk)%R) pk.

(** Modelled from the spec: [entropy(pk, qk)] rests on the
    relative-entropy primitive, which is not among the sources.  The
    relative entropy, in bits, of two flattened arrays, each scaled to
    sum 1. *)
Definition entropy_bits (pk qk : list R) : xreal :=
  xdiv (xsum (map (fun xy => rel_entr (fst xy) (snd xy))
                  (combine (normalize pk) (normalize qk))))
       (ln 2).

(** Modelled from the spec: [pyphi.distribution.max_entropy_distribution]
    is not among the sources.  The uniform distribution over the joint
    states of the mechanism, flattened. *)
Definition uniform_distribution (mechanism : list Z) (number_of_nodes : nat)
  : list R :=
  repeat (1 / INR (2 ^ length mechanism))%R (2 ^ length mechanism).

(** A probability distribution over the joint states of [k] nodes. *)
Definition distribution (k : nat) (p : list R) : Prop :=
  length p = (2 ^ k)%nat /\ Forall (Rle 0%R) p /\ Rsum p = 1%R.

(** ** A system of independent nodes

    A causal model in which no node constrains another: every cause
    repertoire is uniform over the states of its purview.  Repertoires are
    the flat lists of their probabilities, the product of two repertoires
    over disjoint purviews is their outer product, and the divergence of
    two repertoires is measured by a sum of squares, which rational
    arithmetic can compute. *)
Module Independent.
Definition uniform (k : nat) : list Q :=
  repeat (1 # Pos.of_nat (2 ^ k)) (2 ^ k).

Definition cause_repertoire (_ : unit) (state nodes mechanism purview : list Z)
  : list Q := uniform (length purview).

Definition max_entropy_distribution (mechanism : list Z) (n : nat) : list Q :=
  uniform (length mechanism).

Definition multiply (p q : list Q) : list Q :=
  flat_map (fun x => map (Qmult x) q) p.

Definition divergence (p q : list Q) : Q :=
  fold_right Qplus 0%Q
             (map (fun xy => ((fst xy - snd xy) * (fst xy - snd xy))%Q)
                  (combine p q)).

(** Two nodes, numbered 0 and 1, in state (1, 0). *)
Definition two_nodes : Subsystem_2_0 unit :=
  mkSubsystem tt [1; 0]%Z [0; 1]%Z.

Definition EI_partition :=
  effective_information_partition cause_repertoire max_entropy_distribution
                                  multiply divergence.
Definition EI :=
  effective_information cause_repertoire max_entropy_distribution divergence.
Definition partitioned :=
  partitioned_posterior_repertoire cause_repertoire multiply.
Definition mip :=
  find_mip cause_repertoire max_entropy_distribution multiply divergence.
End Independent.

(** What [find_mip] returns on the two independent nodes: both partitions
    tie at 0 and the first, the total partition, is kept. *)
Definition two_nodes_result : Mip_2_0 unit Q :=
  Eval vm_compute in
    match outcome (Independent.mip Independent.two_nodes) with
    | Ok m => m
    | Raise _ => mkMip 0%Q (mkPartition []) Independent.two_nodes
    end.

(** One node whose posterior repertoire is certain of its state. *)
Definition certain (_ : unit) (state nodes mechanism purview : list Z) : list R :=
  [1%R; 0%R].

(** * Properties *)

(** ** The monad *)

Lemma bind_ret_l A B (a : A) (f : A -> M B) : bind (ret a) f = f a.
Proof. unfold bind, ret. destruct (f a). reflexivity. Qed.

Lemma outcome_bind_ok A B (m : M A) (f : A -> M B) a :
  outcome m = Ok a -> outcome (bind m f) = outcome (f a).
Proof.
  destruct m as [t r]. simpl. intros ->. simpl. destruct (f a). reflexivity.
Qed.

(** ** Sorting *)

Section SortedFacts.
Variable A : Type.
Variable ltb : A -> A -> bool.

Hypothesis ltb_asym : forall x y, ltb x y = true -> ltb y x = false.
Hypothesis before_trans : forall x y z, before ltb x y -> before ltb y z -> before ltb x z.
Hypothesis before_antisym : forall x y, before ltb x y -> before ltb y x -> x = y.

Lemma insert_perm x l : Permutation (insert ltb x l) (x :: l).
Proof.
  induction l as [|y l IH]; simpl; [reflexivity|].
  destruct (ltb y x); [|reflexivity].
  rewrite IH. apply perm_swap.
Qed.

Lemma sorted_perm l : Permutation (sorted ltb l) l.
Proof.
  induction l as [|x l IH]; simpl; [reflexivity|].
  rewrite insert_perm. now constructor.
Qed.

Lemma insert_strongly_sorted x l :
  StronglySorted (before ltb) l -> StronglySorted (before ltb) (insert ltb x l).
Proof.
  induction 1 as [|y l Hl IH Hy]; simpl.
  - repeat constructor.
  - destruct (ltb y x) eqn:E.
    + constructor; [exact IH|].
      rewrite Forall_forall in *. intros z Hz.
      apply (Permutation_in _ (insert_perm x l)) in Hz.
      destruct Hz as [<-|Hz]; [apply ltb_asym, E | now apply Hy].
    + constructor; [now constructor|].
      constructor; [exact E|].
      rewrite Forall_forall in *. intros z Hz.
      apply before_trans with y; [exact E | now apply Hy].
Qed.

Lemma sorted_strongly_sorted l : StronglySorted (before ltb) (sorted ltb l).
Proof.
  induction l; simpl; [constructor | now apply insert_strongly_sorted].
Qed.

Lemma before_refl x : before ltb x x.
Proof.
  unfold before. destruct (ltb x x) eqn:E; [|reflexivity].
  pose proof (ltb_asym E) as E'. congruence.
Qed.

Lemma strongly_sorted_head x l y :
  StronglySorted (before ltb) (x :: l) -> In y (x :: l) -> before ltb x y.
Proof.
  intros Hs [<-|Hy]; [apply before_refl|].
  inversion Hs as [|? ? _ Hall]; subst.
  rewrite Forall_forall in Hall. now apply Hall.
Qed.

(** A list has one sorted arrangement. *)
Lemma strongly_sorted_unique l1 :
  forall l2, StronglySorted (before ltb) l1 -> StronglySorted (before ltb) l2 ->
             Permutation l1 l2 -> l1 = l2.
Proof.
  induction l1 as [|a l1 IH]; intros l2 H1 H2 HP.
  - now apply Permutation_nil in HP.
  - destruct l2 as [|b l2].
    + symmetry in HP. now apply Permutation_nil in HP.
    + assert (a = b) as <-.
      { apply before_antisym.
        - apply (strongly_sorted_head H1).
          apply (Permutation_in _ (Permutation_sym HP)). now left.
        - apply (strongly_sorted_head H2).
          apply (Permutation_in _ HP). now left. }
      f_equal. apply IH.
      * now inversion H1.
      * now inversion H2.
      * now apply Permutation_cons_inv in HP.
Qed.

Lemma sorted_of_perm l1 l2 :
  Permutation l1 l2 -> sorted ltb l1 = sorted ltb l2.
Proof.
  intros HP. apply strongly_sorted_unique; try apply sorted_strongly_sorted.
  rewrite !sorted_perm. exact HP.
Qed.

Lemma sorted_fixpoint l : StronglySorted (before ltb) l -> sorted ltb l = l.
Proof.
  intros Hs. apply strongly_sorted_unique; auto using sorted_strongly_sorted.
  apply sorted_perm.
Qed.
End SortedFacts.

(** The order of ints. *)
Lemma Zltb_asym x y : (x <? y) = true -> (y <? x) = false.
Proof. lia. Qed.

Lemma Zltb_before_trans x y z :
  before Z.ltb x y -> before Z.ltb y z -> before Z.ltb x z.
Proof. unfold before. lia. Qed.

Lemma Zltb_before_antisym x y :
  before Z.ltb x y -> before Z.ltb y x -> x = y.
Proof. unfold before. lia. Qed.

(** The order of tuples of ints. *)
Lemma tuple_eqb_eq a : forall b, tuple_eqb a b = true <-> a = b.
Proof.
  induction a as [|x a IH]; intros [|y b]; simpl; split; try easy.
  - rewrite andb_true_iff, Z.eqb_eq, IH. now intros [-> ->].
  - intros [= -> ->]. rewrite Z.eqb_refl. now apply IH.
Qed.

Lemma tuple_ltb_asym a : forall b, tuple_ltb a b = true -> tuple_ltb b a = false.
Proof.
  induction a as [|x a IH]; intros [|y b]; simpl; try easy.
  rewrite (Z.eqb_sym y x).
  destruct (x =? y) eqn:E; [apply IH | lia].
Qed.

Lemma tuple_before_trans a : forall b c,
  before tuple_ltb a b -> before tuple_ltb b c -> before tuple_ltb a c.
Proof.
  unfold before.
  induction a as [|x a IH]; intros [|y b] [|z c]; simpl; try easy.
  destruct (y =? x) eqn:E1, (z =? y) eqn:E2, (z =? x) eqn:E3;
    try lia; intros; eauto.
Qed.

Lemma tuple_before_antisym a : forall b,
  before tuple_ltb a b -> before tuple_ltb b a -> a = b.
Proof.
  unfold before.
  induction a as [|x a IH]; intros [|y b]; simpl; try easy.
  rewrite (Z.eqb_sym y x).
  destruct (x =? y) eqn:E; [|lia].
  apply Z.eqb_eq in E as ->. intros. f_equal. now apply IH.
Qed.

Lemma parts_eqb_eq a : forall b, parts_eqb a b = true <-> a = b.
Proof.
  induction a as [|x a IH]; intros [|y b]; simpl; split; try easy.
  - rewrite andb_true_iff, tuple_eqb_eq, IH. now intros [-> ->].
  - intros [= -> ->]. rewrite andb_true_iff. split; [now apply tuple_eqb_eq | now apply IH].
Qed.

(** ** Minimum *)

Section MinFacts.
Variable A : Type.
Variable ltb : A -> A -> bool.

Lemma min_loop_pure best vals :
  min_loop (fun a b => ret (ltb a b)) best (map (@ret A) vals)
  = ret (min_from ltb best vals).
Proof.
  revert best. induction vals as [|v vals IH]; intros best;
    cbn [min_loop map]; [reflexivity|].
  now rewrite !bind_ret_l, IH.
Qed.

Lemma min_loop_outcome (lt : A -> A -> M bool) its : forall vals best,
  Forall2 (fun it v => outcome it = Ok v) its vals ->
  (forall a b, In a (best :: vals) -> In b (best :: vals) ->
               outcome (lt a b) = Ok (ltb a b)) ->
  outcome (min_loop lt best its) = Ok (min_from ltb best vals).
Proof.
  induction its as [|it its IH]; intros vals best HF Hlt;
    inversion HF as [|? v ? vals' Hit HF']; subst; cbn [min_loop min_from];
    [reflexivity|].
  rewrite (outcome_bind_ok _ _ Hit).
  rewrite (outcome_bind_ok _ _ (Hlt v best (or_intror (or_introl eq_refl))
                                    (or_introl eq_refl))).
  apply IH; [exact HF'|].
  intros a b Ha Hb. apply Hlt.
  - destruct Ha as [Ha|Ha]; [|now right; right].
    destruct (ltb v best); subst; simpl; auto.
  - destruct Hb as [Hb|Hb]; [|now right; right].
    destruct (ltb v best); subst; simpl; auto.
Qed.

Lemma py_min_outcome (lt : A -> A -> M bool) it its v vs :
  Forall2 (fun it v => outcome it = Ok v) (it :: its) (v :: vs) ->
  (forall a b, In a (v :: vs) -> In b (v :: vs) ->
               outcome (lt a b) = Ok (ltb a b)) ->
  outcome (py_min lt (it :: its)) = Ok (min_from ltb v vs).
Proof.
  intros HF Hlt. inversion HF as [|? ? ? ? Hit Hits]; subst.
  cbn [py_min]. rewrite (outcome_bind_ok _ _ Hit).
  now apply min_loop_outcome.
Qed.

Hypothesis ltb_irrefl : forall x, ltb x x = false.
Hypothesis ltb_trans :
  forall x y z, ltb x y = true -> ltb y z = true -> ltb x z = true.
Hypothesis ltb_cotrans :
  forall x y z, ltb x y = true -> ltb x z = true \/ ltb z y = true.

(** [min] keeps the first of the smallest items: whatever comes before
    it is strictly larger, and nothing after it is smaller. *)
Lemma min_from_split vals : forall l1 best l2,
  (forall x, In x l1 -> ltb best x = true) ->
  (forall x, In x l2 -> ltb x best = false) ->
  exists l1' l2',
    l1 ++ best :: l2 ++ vals = l1' ++ min_from ltb best vals :: l2'
    /\ (forall x, In x l1' -> ltb (min_from ltb best vals) x = true)
    /\ (forall x, In x l2' -> ltb x (min_from ltb best vals) = false).
Proof.
  induction vals as [|v vals IH]; intros l1 best l2 H1 H2; simpl.
  - exists l1, l2. now rewrite app_nil_r.
  - destruct (ltb v best) eqn:E.
    + destruct (@IH (l1 ++ best :: l2) v []) as (l1' & l2' & Heq & Ha & Hb).
      * intros x Hx. apply in_app_or in Hx as [Hx|[<-|Hx]].
        -- apply ltb_trans with best; auto.
        -- exact E.
        -- destruct (ltb_cotrans x E) as [H'|H']; [exact H'|].
           rewrite (H2 x Hx) in H'. discriminate.
      * intros x [].
      * exists l1', l2'. split; [|now split].
        rewrite <- Heq. simpl. now rewrite <- app_assoc.
    + destruct (@IH l1 best (l2 ++ [v])) as (l1' & l2' & Heq & Ha & Hb).
      * exact H1.
      * intros x Hx. apply in_app_or in Hx as [Hx|[<-|[]]]; auto.
      * exists l1', l2'. split; [|now split].
        rewrite <- Heq. now rewrite <- app_assoc.
Qed.

Lemma min_from_first best vals :
  exists l1 l2,
    best :: vals = l1 ++ min_from ltb best vals :: l2
    /\ (forall x, In x l1 -> ltb (min_from ltb best vals) x = true)
    /\ (forall x, In x l2 -> ltb x (min_from ltb best vals) = false).
Proof. apply (@min_from_split vals [] best []); intros x []. Qed.

Lemma min_from_in best vals : In (min_from ltb best vals) (best :: vals).
Proof.
  destruct (min_from_first best vals) as (l1 & l2 & -> & _).
  apply in_or_app. right. now left.
Qed.

Lemma min_from_least best vals x :
  In x (best :: vals) -> ltb x (min_from ltb best vals) = false.
Proof.
  destruct (min_from_first best vals) as (l1 & l2 & -> & Ha & Hb).
  intros Hx. apply in_app_or in Hx as [Hx|[<-|Hx]]; auto.
  destruct (ltb x (min_from ltb best vals)) eqn:E; [|reflexivity].
  rewrite <- (ltb_irrefl x). symmetry. apply ltb_trans with (min_from ltb best vals); auto.
Qed.
End MinFacts.

(** ** Numbers and pairs of numbers *)

Section NumberFacts.
Context {num : Type} `{Number num}.

Lemma num_trichotomy (a b : num) :
  num_ltb a b = true \/ num_eqb a b = true \/ num_ltb b a = true.
Proof.
  destruct (num_ltb a b) eqn:E1; [now left|].
  destruct (num_eqb a b) eqn:E2; [now right; left|].
  right; right. now apply num_ltb_total.
Qed.

(** The order of pairs is the lexicographic one. *)
Lemma key_ltb_spec (a b : num * num) :
  key_ltb a b = true <->
  num_ltb (fst a) (fst b) = true
  \/ (num_eqb (fst a) (fst b) = true /\ num_ltb (snd a) (snd b) = true).
Proof.
  unfold key_ltb. destruct a as [a1 a2], b as [b1 b2]; simpl.
  destruct (num_eqb a1 b1) eqn:E1; simpl.
  - rewrite (num_ltb_irrefl _ _ E1).
    destruct (num_eqb a2 b2) eqn:E2; simpl.
    + rewrite (num_ltb_irrefl _ _ E2). intuition discriminate.
    + intuition discriminate.
  - intuition discriminate.
Qed.

Lemma key_ltb_irrefl (a : num * num) : key_ltb a a = false.
Proof.
  destruct (key_ltb a a) eqn:E; [|reflexivity].
  apply key_ltb_spec in E.
  rewrite !(num_ltb_irrefl _ _ (num_eqb_refl _)) in E.
  intuition discriminate.
Qed.

Lemma key_ltb_trans (a b c : num * num) :
  key_ltb a b = true -> key_ltb b c = true -> key_ltb a c = true.
Proof.
  rewrite !key_ltb_spec. intros [L1|[E1 L1]] [L2|[E2 L2]].
  - left. eapply num_ltb_trans; eauto.
  - left. now rewrite <- (num_ltb_eqb_r _ _ _ E2).
  - left. now rewrite (num_ltb_eqb_l _ _ _ E1).
  - right. split; [eapply num_eqb_trans | eapply num_ltb_trans]; eauto.
Qed.

Lemma key_ltb_cotrans (a b c : num * num) :
  key_ltb a b = true -> key_ltb a c = true \/ key_ltb c b = true.
Proof.
  rewrite !key_ltb_spec. intros [L|[E L]].
  - destruct (num_trichotomy (fst a) (fst c)) as [T|[T|T]].
    + now left; left.
    + right; left. now rewrite <- (num_ltb_eqb_l _ _ _ T).
    + right; left. eapply num_ltb_trans; eauto.
  - destruct (num_trichotomy (fst a) (fst c)) as [T|[T|T]].
    + now left; left.
    + assert (E' : num_eqb (fst c) (fst b) = true).
      { apply num_eqb_trans with (fst a); [now rewrite num_eqb_sym | exact E]. }
      destruct (num_trichotomy (snd a) (snd c)) as [U|[U|U]].
      * now left; right.
      * right; right. split; [exact E'|].
        now rewrite <- (num_ltb_eqb_l _ _ _ U).
      * right; right. split; [exact E'|]. eapply num_ltb_trans; eauto.
    + right; left. now rewrite <- (num_ltb_eqb_r _ _ _ E).
Qed.
End NumberFacts.

(** ** Splitting a sequence by a mask *)

Local Open Scope nat_scope.

Lemma map_nth_seq (l : list Z) :
  map (fun i => nth i l 0%Z) (seq 0 (length l)) = l.
Proof.
  induction l as [|x l IH]; [reflexivity|].
  cbn [length seq map nth]. f_equal.
  rewrite <- seq_shift, map_map. exact IH.
Qed.

Lemma filter_split_perm A (f : A -> bool) (l : list A) :
  Permutation (filter f l ++ filter (fun x => negb (f x)) l) l.
Proof.
  induction l as [|x l IH]; simpl; [reflexivity|].
  destruct (f x); simpl.
  - now constructor.
  - rewrite <- Permutation_middle. now constructor.
Qed.

Lemma pick_perm f l :
  Permutation (pick f l ++ pick (fun i => negb (f i)) l) l.
Proof.
  unfold pick. rewrite <- map_app.
  eapply Permutation_trans; [apply Permutation_map, filter_split_perm|].
  now rewrite map_nth_seq.
Qed.

Lemma pick_none f l :
  (forall k, k < length l -> f k = false) -> pick f l = [].
Proof.
  intros Hf. unfold pick.
  destruct (filter f (seq 0 (length l))) as [|k ks] eqn:E; [reflexivity|].
  assert (Hk : In k (filter f (seq 0 (length l)))) by (rewrite E; now left).
  apply filter_In in Hk as [Hk Hfk]. apply in_seq in Hk.
  rewrite Hf in Hfk by lia. discriminate.
Qed.

Lemma pick_all f l :
  (forall k, k < length l -> f k = true) -> pick f l = l.
Proof.
  intros Hf. unfold pick.
  rewrite forallb_filter_id; [apply map_nth_seq|].
  apply forallb_forall.
  intros k Hk. apply in_seq in Hk. apply Hf. lia.
Qed.

Lemma pick_in f l k :
  k < length l -> f k = true -> In (nth k l 0%Z) (pick f l).
Proof.
  intros Hk Hf. unfold pick.
  apply in_map with (f := fun i => nth i l 0%Z).
  apply filter_In. split; [apply in_seq; lia | exact Hf].
Qed.



(** ** Masks *)

Lemma bit_testbit i n : bit i n = Z.b2z (Z.testbit i (Z.of_nat n)).
Proof.
  unfold bit. change 1%Z with (Z.ones 1).
  rewrite Z.land_ones by lia. change (2 ^ 1)%Z with 2%Z.
  rewrite <- Z.bit0_mod, Z.shiftr_spec by lia. reflexivity.
Qed.

Lemma bit_is_one i n : (bit i n =? 1)%Z = Z.testbit i (Z.of_nat n).
Proof. rewrite bit_testbit. now destruct (Z.testbit i (Z.of_nat n)). Qed.

Lemma bit_is_zero i n : (bit i n =? 0)%Z = negb (Z.testbit i (Z.of_nat n)).
Proof. rewrite bit_testbit. now destruct (Z.testbit i (Z.of_nat n)). Qed.

Lemma mask_zero n : mask 0 n = false.
Proof. apply Z.testbit_0_l. Qed.

Lemma mask_above i N n : i < 2 ^ N -> N <= n -> mask i n = false.
Proof.
  intros Hi Hn. unfold mask. destruct i as [|i]; [apply Z.testbit_0_l|].
  apply Z.bits_above_log2; [lia|].
  apply Z.lt_le_trans with (Z.of_nat N); [|lia].
  apply Z.log2_lt_pow2; [lia|].
  change 2%Z with (Z.of_nat 2). rewrite <- Nat2Z.inj_pow. lia.
Qed.

Lemma mask_some i N : 0 < i -> i < 2 ^ N -> exists k, k < N /\ mask i k = true.
Proof.
  intros H0 Hi. exists (Z.to_nat (Z.log2 (Z.of_nat i))).
  assert (Hlog : (Z.log2 (Z.of_nat i) < Z.of_nat N)%Z).
  { apply Z.log2_lt_pow2; [lia|].
    change 2%Z with (Z.of_nat 2). rewrite <- Nat2Z.inj_pow. lia. }
  pose proof (Z.log2_nonneg (Z.of_nat i)).
  split; [lia|]. unfold mask. rewrite Z2Nat.id by lia.
  apply Z.bit_log2. lia.
Qed.


(** The pairs of [bipartition], by mask. *)
Lemma bipartition_masks (sq : list Z) :
  bipartition sq =
  match length sq with
  | O => []
  | S N' => map (fun i => (pick (mask i) sq, pick (fun n => negb (mask i n)) sq))
                (seq 0 (2 ^ N'))
  end.
Proof.
  unfold bipartition, bipartition_indices, pick.
  destruct (length sq) as [|N'] eqn:E; [reflexivity|].
  rewrite map_map. apply map_ext. intros i. cbn [fst snd].
  f_equal; f_equal; apply filter_ext; intros n;
    [apply bit_is_one | apply bit_is_zero].
Qed.

(** ** Generated partitions *)

Lemma generate_partitions_masks (sq : list Z) :
  generate_partitions sq =
  match length sq with
  | O => []
  | S N' => map (partition_of sq) (seq 0 (2 ^ N'))
  end.
Proof.
  unfold generate_partitions. rewrite bipartition_masks.
  destruct (length sq); [reflexivity|]. now rewrite map_map.
Qed.

Lemma partition_of_zero sq : partition_of sq 0 = mkPartition [sq].
Proof.
  unfold partition_of.
  rewrite (pick_none (mask 0) sq) by (intros; apply mask_zero).
  rewrite pick_all by (intros; now rewrite mask_zero).
  reflexivity.
Qed.

Lemma tuple_eqb_nil a : tuple_eqb a [] = false <-> a <> [].
Proof. destruct a; simpl; split; congruence. Qed.

Lemma pick_length_pos f l k : k < length l -> f k = true -> pick f l <> [].
Proof.
  intros Hk Hf E. apply (pick_in f l Hk) in Hf. now rewrite E in Hf.
Qed.

Lemma partition_of_pos sq N' i :
  length sq = S N' -> 0 < i -> i < 2 ^ N' ->
  pick (mask i) sq <> [] /\ pick (fun n => negb (mask i n)) sq <> []
  /\ partition_of sq i =
     Partition_new [pick (mask i) sq; pick (fun n => negb (mask i n)) sq].
Proof.
  intros Hlen H0 Hi.
  assert (Ha : pick (mask i) sq <> []).
  { destruct (@mask_some i N' H0 Hi) as (k & Hk & Hm).
    apply pick_length_pos with k; [lia | exact Hm]. }
  split; [exact Ha|]. split.
  - apply pick_length_pos with N'; [lia|].
    now rewrite (mask_above Hi (Nat.le_refl N')).
  - unfold partition_of. apply tuple_eqb_nil in Ha. now rewrite Ha.
Qed.

Lemma Partition_new_pair a b :
  parts (Partition_new [a; b]) = [a; b] \/ parts (Partition_new [a; b]) = [b; a].
Proof. simpl. destruct (tuple_ltb b a); auto. Qed.

(** What [generate_partitions] yields: the whole sequence as one group,
    or two non-empty groups picked by a mask. *)
Lemma generated_cases sq p :
  In p (generate_partitions sq) ->
  (sq <> [] /\ p = mkPartition [sq])
  \/ exists i a b,
       a = pick (mask i) sq /\ b = pick (fun n => negb (mask i n)) sq
       /\ 0 < i < 2 ^ (length sq - 1)
       /\ a <> [] /\ b <> [] /\ p = Partition_new [a; b].
Proof.
  rewrite generate_partitions_masks.
  destruct (length sq) as [|N'] eqn:E; [intros []|].
  intros Hp. apply in_map_iff in Hp as (i & <- & Hi). apply in_seq in Hi.
  destruct i as [|i].
  - left. rewrite partition_of_zero. split; [|reflexivity].
    intros ->. discriminate.
  - right. destruct (@partition_of_pos sq N' (S i) E) as (Ha & Hb & Hp); try lia.
    exists (S i), (pick (mask (S i)) sq), (pick (fun n => negb (mask (S i) n)) sq).
    rewrite Nat.sub_succ, Nat.sub_0_r.
    repeat split; auto; lia.
Qed.

Lemma generated_concat_perm sq p :
  In p (generate_partitions sq) -> Permutation (concat (parts p)) sq.
Proof.
  intros Hp. apply generated_cases in Hp as [[_ ->]|(i & a & b & -> & -> & _ & _ & _ & ->)].
  - simpl. now rewrite app_nil_r.
  - destruct (Partition_new_pair (pick (mask i) sq)
                                 (pick (fun n => negb (mask i n)) sq)) as [-> | ->];
      simpl; rewrite app_nil_r; [|rewrite Permutation_app_comm]; apply pick_perm.
Qed.

(** [indices] of a generated partition is the sorted node sequence. *)
Lemma generated_indices sq p :
  In p (generate_partitions sq) -> indices p = sorted Z.ltb sq.
Proof.
  intros Hp. unfold indices.
  apply sorted_of_perm;
    eauto using Zltb_asym, Zltb_before_trans, Zltb_before_antisym,
                generated_concat_perm.
Qed.

(** An ascending sequence, in the order [sorted] uses. *)
Lemma ascending_before (l : list Z) :
  Sorted Z.le l -> StronglySorted (before Z.ltb) l.
Proof.
  intros Hs. apply Sorted_StronglySorted.
  - intros x y z. apply Zltb_before_trans.
  - eapply Sorted_ind with (P := Sorted (before Z.ltb)); [constructor| |exact Hs].
    intros a l0 _ IH Hhd. constructor; [exact IH|].
    destruct Hhd; constructor. unfold before. lia.
Qed.

Lemma sorted_ascending (l : list Z) : Sorted Z.le l -> sorted Z.ltb l = l.
Proof.
  intros Hs. apply sorted_fixpoint;
    eauto using Zltb_asym, Zltb_before_trans, Zltb_before_antisym, ascending_before.
Qed.


Lemma is_total_pair a b : is_total (Partition_new [a; b]) = false.
Proof.
  unfold is_total, Partition_len.
  now destruct (Partition_new_pair a b) as [-> | ->].
Qed.





Lemma pow2_pos n : 0 < 2 ^ n.
Proof. apply Nat.neq_0_lt_0, Nat.pow_nonzero. discriminate. Qed.

(** The enumeration starts with the total partition; every other item
    has two groups. *)
Lemma generate_partitions_head sq :
  sq <> [] ->
  exists rest,
    generate_partitions sq = mkPartition [sq] :: rest
    /\ length rest = 2 ^ (length sq - 1) - 1
    /\ forall p, In p rest -> is_total p = false.
Proof.
  intros Hne. rewrite generate_partitions_masks.
  destruct (length sq) as [|N'] eqn:E; [now destruct sq|].
  rewrite Nat.sub_succ, Nat.sub_0_r.
  pose proof (pow2_pos N') as Hpos.
  destruct (2 ^ N') as [|m] eqn:Em; [lia|].
  exists (map (partition_of sq) (seq 1 m)). cbn [seq map].
  rewrite partition_of_zero, length_map, length_seq. repeat split; [lia|].
  intros p Hp. apply in_map_iff in Hp as (i & <- & Hi). apply in_seq in Hi.
  destruct (@partition_of_pos sq N' i E) as (_ & _ & ->); try lia.
  apply is_total_pair.
Qed.

(** ** Partitions *)

(** C9. Two Partitions built from the same groups, given in any order,
    are the same value: they compare equal and every hash of their stored
    groups agrees. *)
Theorem Partition_group_order_irrelevant (ps qs : list (list Z)) :
  Permutation ps qs ->
  Partition_new ps = Partition_new qs
  /\ Partition_eq (Partition_new ps) (Partition_new qs) = true
  /\ forall hash, Partition_hash hash (Partition_new ps)
                  = Partition_hash hash (Partition_new qs).
Proof.
  intros HP.
  assert (Heq : Partition_new ps = Partition_new qs).
  { unfold Partition_new. f_equal.
    apply sorted_of_perm;
      eauto using tuple_ltb_asym, tuple_before_trans, tuple_before_antisym. }
  split; [exact Heq|]. rewrite Heq. split.
  - now apply parts_eqb_eq.
  - reflexivity.
Qed.

Lemma Partition_group_order_irrelevant_witness :
  Permutation [[0]; [1; 2]]%Z [[1; 2]; [0]]%Z
  /\ Partition_new [[0]; [1; 2]]%Z = Partition_new [[1; 2]; [0]]%Z.
Proof.
  split; [apply perm_swap|].
  apply (@Partition_group_order_irrelevant [[0]; [1; 2]]%Z [[1; 2]; [0]]%Z).
  apply perm_swap.
Defined.

Lemma Zltb_irrefl x : (x <? x)%Z = false.
Proof. apply Z.ltb_irrefl. Qed.

Lemma Zltb_trans x y z : (x <? y)%Z = true -> (y <? z)%Z = true -> (x <? z)%Z = true.
Proof. lia. Qed.

Lemma Zltb_cotrans x y z :
  (x <? y)%Z = true -> (x <? z)%Z = true \/ (z <? y)%Z = true.
Proof. lia. Qed.

(** The size of the smallest group, as [normalization] computes it. *)
Lemma normalization_groups g gs :
  gs <> [] ->
  normalization (mkPartition (g :: gs))
  = ret ((Z.of_nat (length (g :: gs)) - 1)
         * min_from Z.ltb (Z.of_nat (length g))
                    (map (fun h => Z.of_nat (length h)) gs))%Z.
Proof.
  intros Hgs. unfold normalization, is_total, Partition_len. cbn [parts].
  destruct gs as [|h gs]; [congruence|]. cbn [length Nat.eqb].
  cbn [py_min map]. rewrite bind_ret_l.
  change (ret (Z.of_nat (length h)) :: map (fun g0 => ret (Z.of_nat (length g0))) gs)
    with (map (fun g0 => ret (Z.of_nat (length g0))) (h :: gs)).
  rewrite <- (map_map (fun g0 => Z.of_nat (length g0)) (@ret Z)).
  rewrite min_loop_pure, bind_ret_l. reflexivity.
Qed.

(** A partition with one group. *)
Lemma normalization_total (p : Partition) :
  is_total p = true ->
  exists g, parts p = [g] /\ indices p = sorted Z.ltb g
            /\ normalization p = ret (Z.of_nat (length g)).
Proof.
  intros Ht. unfold normalization. rewrite Ht.
  unfold is_total, Partition_len in Ht. unfold indices.
  destruct p as [[|g [|h gs]]]; try discriminate. exists g. cbn [parts concat].
  rewrite app_nil_r. repeat split.
  now rewrite (Permutation_length (sorted_perm Z.ltb g)).
Qed.

(** A partition with several groups. *)
Lemma normalization_many (p : Partition) :
  2 <= Partition_len p ->
  exists m,
    normalization p = ret ((Z.of_nat (Partition_len p) - 1) * m)%Z
    /\ In m (map (fun g => Z.of_nat (length g)) (parts p))
    /\ forall g, In g (parts p) -> (m <= Z.of_nat (length g))%Z.
Proof.
  unfold Partition_len. destruct p as [[|g gs]]; cbn [parts length]; [lia|].
  intros Hk. assert (Hgs : gs <> []) by (intros ->; simpl in Hk; lia).
  exists (min_from Z.ltb (Z.of_nat (length g))
                   (map (fun h => Z.of_nat (length h)) gs)).
  split; [now apply normalization_groups|]. split.
  - apply (min_from_in Z.ltb Zltb_trans Zltb_cotrans).
  - intros h Hh.
    assert (Hin : In (Z.of_nat (length h))
                     (Z.of_nat (length g) :: map (fun h => Z.of_nat (length h)) gs)).
    { destruct Hh as [->|Hh]; [now left|right].
      now apply in_map with (f := fun h => Z.of_nat (length h)). }
    apply (min_from_least Z.ltb Zltb_irrefl Zltb_trans Zltb_cotrans) in Hin.
    lia.
Qed.

(** A partition that [generate_partitions] yields. *)
Lemma normalization_generated (nodes : list Z) (p : Partition) :
  In p (generate_partitions nodes) ->
  exists n, normalization p = ret n /\ (1 <= n)%Z
            /\ (is_total p = true -> n = Z.of_nat (length nodes)).
Proof.
  intros Hp.
  destruct (generated_cases _ _ Hp) as [[Hne ->]|(i & a & b & _ & _ & _ & Ha & Hb & ->)].
  - destruct (normalization_total (mkPartition [nodes])) as (g & [= <-] & _ & Hn);
      [reflexivity|].
    exists (Z.of_nat (length nodes)). split; [exact Hn|].
    split; [destruct nodes; [congruence | simpl; lia] | reflexivity].
  - rewrite is_total_pair.
    destruct (normalization_many (Partition_new [a; b])) as (m & Hn & Hin & _).
    { unfold Partition_len. now destruct (Partition_new_pair a b) as [-> | ->]. }
    exists ((Z.of_nat (Partition_len (Partition_new [a; b])) - 1) * m)%Z.
    split; [exact Hn|]. split; [|discriminate].
    assert (Hm : (1 <= m)%Z).
    { apply in_map_iff in Hin as (g & <- & Hg).
      assert (g <> []).
      { destruct (Partition_new_pair a b) as [E|E]; rewrite E in Hg;
          destruct Hg as [<-|[<-|[]]]; assumption. }
      destruct g; [congruence | simpl; lia]. }
    unfold Partition_len.
    destruct (Partition_new_pair a b) as [-> | ->]; cbn [length];
      change (Z.of_nat 2) with 2%Z; lia.
Qed.

(** C6. The normalization of a total partition is the number of nodes of
    its only group; that of a partition with k >= 2 groups is (k - 1)
    times the size of its smallest group; for a partition that
    [generate_partitions] yields it is at least 1, and the number of
    nodes when that partition is total. *)
Theorem normalization_spec (p : Partition) :
  (is_total p = true ->
   exists g, parts p = [g] /\ indices p = sorted Z.ltb g
             /\ normalization p = ret (Z.of_nat (length g)))
  /\ (2 <= Partition_len p ->
      exists m,
        normalization p = ret ((Z.of_nat (Partition_len p) - 1) * m)%Z
        /\ In m (map (fun g => Z.of_nat (length g)) (parts p))
        /\ forall g, In g (parts p) -> (m <= Z.of_nat (length g))%Z)
  /\ (forall nodes, In p (generate_partitions nodes) ->
      exists n, normalization p = ret n /\ (1 <= n)%Z
                /\ (is_total p = true -> n = Z.of_nat (length nodes))).
Proof.
  split; [apply normalization_total|].
  split; [apply normalization_many|].
  intros nodes. apply normalization_generated.
Qed.

Lemma normalization_spec_witness :
  2 <= Partition_len (Partition_new [[1]; [2; 3]]%Z)
  /\ In (Partition_new [[1]; [2; 3]]%Z) (generate_partitions [1; 2; 3]%Z)
  /\ (exists m, normalization (Partition_new [[1]; [2; 3]]%Z)
                = ret ((Z.of_nat 2 - 1) * m)%Z)
  /\ exists n, normalization (Partition_new [[1]; [2; 3]]%Z) = ret n /\ (1 <= n)%Z.
Proof.
  assert (Hk : 2 <= Partition_len (Partition_new [[1]; [2; 3]]%Z))
    by (vm_compute; lia).
  assert (Hin : In (Partition_new [[1]; [2; 3]]%Z) (generate_partitions [1; 2; 3]%Z)).
  { vm_compute. right. left. reflexivity. }
  destruct (normalization_spec (Partition_new [[1]; [2; 3]]%Z))
    as (_ & Hmany & Hgen).
  split; [exact Hk|]. split; [exact Hin|]. split.
  - destruct (Hmany Hk) as (m & Hm & _). exists m. exact Hm.
  - destruct (Hgen [1; 2; 3]%Z Hin) as (n & Hn & H1 & _).
    exists n. split; [exact Hn | exact H1].
Defined.

Lemma before_ascending (l : list Z) :
  StronglySorted (before Z.ltb) l -> Sorted Z.le l.
Proof.
  intros Hs. apply StronglySorted_Sorted in Hs.
  induction Hs as [|a l _ IH Hhd]; constructor; [exact IH|].
  destruct Hhd as [|b l Hb]; constructor. unfold before in Hb. lia.
Qed.

(** C7, as the code has it. For every partition that [generate_partitions]
    yields, [indices] is the node sequence sorted in ascending order: an
    ascending rearrangement of the nodes.  It is the node sequence itself
    exactly when that sequence is ascending. *)
Theorem indices_round_trip (nodes : list Z) (p : Partition) :
  In p (generate_partitions nodes) ->
  indices p = sorted Z.ltb nodes
  /\ Sorted Z.le (indices p)
  /\ Permutation (indices p) nodes
  /\ (indices p = nodes <-> Sorted Z.le nodes).
Proof.
  intros Hp. pose proof (generated_indices _ _ Hp) as Hi.
  assert (Hs : Sorted Z.le (sorted Z.ltb nodes)).
  { apply before_ascending, sorted_strongly_sorted;
      eauto using Zltb_asym, Zltb_before_trans. }
  rewrite Hi. split; [reflexivity|]. split; [exact Hs|].
  split; [apply sorted_perm|]. split.
  - intros Heq. now rewrite <- Heq.
  - apply sorted_ascending.
Qed.

Lemma indices_round_trip_witness :
  In (mkPartition [[1; 3]; [2]]%Z) (generate_partitions [1; 2; 3]%Z)
  /\ indices (mkPartition [[1; 3]; [2]]%Z) = [1; 2; 3]%Z.
Proof.
  assert (Hin : In (mkPartition [[1; 3]; [2]]%Z) (generate_partitions [1; 2; 3]%Z)).
  { vm_compute. right. right. left. reflexivity. }
  split; [exact Hin|].
  apply (indices_round_trip _ _ Hin).
  repeat constructor; lia.
Defined.

(** C7, as stated, fails on a node sequence that is not ascending: for
    the nodes (1, 0) the total partition is generated and its [indices]
    is (0, 1). *)
Lemma indices_round_trip_unsorted :
  In (mkPartition [[1; 0]]%Z) (generate_partitions [1; 0]%Z)
  /\ indices (mkPartition [[1; 0]]%Z) = [0; 1]%Z
  /\ indices (mkPartition [[1; 0]]%Z) <> [1; 0]%Z.
Proof.
  split; [vm_compute; now left|].
  split; [reflexivity | discriminate].
Qed.



(** ** The subsystem *)

Section SubsystemFacts.
Variables Network repertoire num : Type.
Context `{Number num}.
Variable cause_repertoire :
  Network -> list Z -> list Z -> list Z -> list Z -> repertoire.
Variable max_entropy_distribution : list Z -> nat -> repertoire.
Variable multiply : repertoire -> repertoire -> repertoire.
Variable entropy : repertoire -> repertoire -> num.

Local Abbreviation Subsystem := (Subsystem_2_0 Network).
Local Abbreviation prior := (prior_repertoire max_entropy_distribution).
Local Abbreviation posterior := (posterior_repertoire cause_repertoire).
Local Abbreviation partitioned :=
  (partitioned_posterior_repertoire cause_repertoire multiply).
Local Abbreviation EI :=
  (effective_information cause_repertoire max_entropy_distribution entropy).
Local Abbreviation EI_partition :=
  (effective_information_partition cause_repertoire max_entropy_distribution
                                   multiply entropy).
Local Abbreviation mip :=
  (find_mip cause_repertoire max_entropy_distribution multiply entropy).
Local Abbreviation posterior_of := (posterior_of cause_repertoire).
Local Abbreviation product_of := (product_of cause_repertoire multiply).
Local Abbreviation ei_of :=
  (ei_of cause_repertoire max_entropy_distribution multiply entropy).
Local Abbreviation mip_of :=
  (mip_of cause_repertoire max_entropy_distribution multiply entropy).
Local Abbreviation mip_items :=
  (mip_items cause_repertoire max_entropy_distribution multiply entropy).
Local Abbreviation Mip := (Mip_2_0 Network num).
Local Abbreviation mip_ltb := (@mip_ltb Network num _).

Lemma posterior_repertoire_run (self : Subsystem) mechanism :
  posterior self mechanism
  = ([PosteriorComputed (default_mechanism self mechanism)],
     Ok (posterior_of self (default_mechanism self mechanism))).
Proof. reflexivity. Qed.

Lemma prior_repertoire_run (self : Subsystem) mechanism :
  prior self mechanism
  = ([PriorComputed (default_mechanism self mechanism)],
     Ok (max_entropy_distribution (default_mechanism self mechanism)
                                  (Subsystem_len self))).
Proof. reflexivity. Qed.

Lemma effective_information_run (self : Subsystem) mechanism :
  EI self mechanism
  = ([PosteriorComputed (default_mechanism self mechanism);
      PriorComputed (default_mechanism self mechanism)],
     Ok (entropy (posterior_of self (default_mechanism self mechanism))
                 (max_entropy_distribution (default_mechanism self mechanism)
                                           (Subsystem_len self)))).
Proof. reflexivity. Qed.

Lemma mapM_posterior (self : Subsystem) (groups : list (list Z)) :
  mapM (fun mechanism => posterior self (Some mechanism)) groups
  = (map PosteriorComputed groups, Ok (map (posterior_of self) groups)).
Proof.
  induction groups as [|g groups IH]; [reflexivity|].
  cbn [mapM map]. rewrite IH, posterior_repertoire_run.
  cbn. now rewrite app_nil_r.
Qed.

Lemma partitioned_run (self : Subsystem) (p : Partition) :
  partitioned self p
  = (map PosteriorComputed (parts p),
     match parts p with
     | [] => Raise TypeError
     | g :: gs => Ok (product_of self g gs)
     end).
Proof.
  unfold partitioned_posterior_repertoire. rewrite mapM_posterior.
  destruct (parts p) as [|g gs]; cbn; rewrite ?app_nil_r; reflexivity.
Qed.

Lemma EI_partition_rejects (self : Subsystem) (p : Partition) :
  indices p <> node_indices self ->
  EI_partition self p = ([], Raise AssertionError).
Proof.
  intros Hne. unfold effective_information_partition.
  destruct (tuple_eqb (indices p) (node_indices self)) eqn:E;
    [now apply tuple_eqb_eq in E | reflexivity].
Qed.

Lemma EI_partition_total (self : Subsystem) (p : Partition) :
  indices p = node_indices self -> is_total p = true ->
  EI_partition self p = EI self None.
Proof.
  intros Hi Ht. unfold effective_information_partition.
  apply tuple_eqb_eq in Hi. rewrite Hi, Ht.
  cbn [py_assert]. now rewrite bind_ret_l.
Qed.

Lemma EI_partition_split (self : Subsystem) (p : Partition) :
  indices p = node_indices self -> is_total p = false ->
  EI_partition self p
  = (PosteriorComputed (node_indices self) :: map PosteriorComputed (parts p),
     match parts p with
     | [] => Raise TypeError
     | g :: gs => Ok (ei_of self p)
     end).
Proof.
  intros Hi Ht. unfold effective_information_partition, ei_of.
  apply tuple_eqb_eq in Hi. rewrite Hi, Ht.
  cbn [py_assert]. rewrite bind_ret_l, posterior_repertoire_run, partitioned_run.
  destruct (parts p) as [|g gs]; cbn; rewrite ?app_nil_r; reflexivity.
Qed.

Lemma EI_partition_returns (self : Subsystem) (p : Partition) :
  indices p = node_indices self -> parts p <> [] ->
  outcome (EI_partition self p) = Ok (ei_of self p).
Proof.
  intros Hi Hp. destruct (is_total p) eqn:Ht.
  - rewrite EI_partition_total, effective_information_run by assumption.
    unfold ei_of. now rewrite Ht.
  - rewrite EI_partition_split by assumption.
    destruct (parts p); [congruence | reflexivity].
Qed.
(** C5. A partition whose indices differ from the node indices of the
    subsystem makes [effective_information_partition] raise
    AssertionError at once: no repertoire has been requested and no value
    is returned.  When the indices agree the assertion does not fire. *)
Theorem effective_information_partition_assertion
        (self : Subsystem) (p : Partition) :
  (indices p <> node_indices self ->
   EI_partition self p = ([], Raise AssertionError))
  /\ (indices p = node_indices self ->
      outcome (EI_partition self p) <> Raise AssertionError).
Proof.
  split; [apply EI_partition_rejects|].
  intros Hi. destruct (is_total p) eqn:Ht.
  - rewrite EI_partition_total, effective_information_run by assumption.
    discriminate.
  - rewrite EI_partition_split by assumption.
    destruct (parts p); discriminate.
Qed.

(** C3, as the code has it. For a partition with one group whose indices
    are the node indices of the subsystem,
    [effective_information_partition] is [effective_information] of the
    whole system: the same requests and the same value, the entropy of
    the posterior against the prior. *)
Theorem effective_information_partition_total
        (self : Subsystem) (p : Partition) :
  is_total p = true ->
  indices p = node_indices self ->
  EI_partition self p = EI self None
  /\ outcome (EI_partition self p)
     = Ok (entropy (posterior_of self (node_indices self))
                   (max_entropy_distribution (node_indices self)
                                             (Subsystem_len self))).
Proof.
  intros Ht Hi. rewrite EI_partition_total by assumption.
  split; reflexivity.
Qed.

(** C4, as the code has it. [partitioned_posterior_repertoire] does not
    look at the indices of the partition: it requests the posterior
    repertoire of each group, in order, and returns their product when
    there is at least one group; it never raises AssertionError. *)
Theorem partitioned_posterior_repertoire_unchecked
        (self : Subsystem) (p : Partition) :
  parts p <> [] ->
  trace (partitioned self p) = map PosteriorComputed (parts p)
  /\ outcome (partitioned self p) <> Raise AssertionError
  /\ exists g gs,
       parts p = g :: gs
       /\ outcome (partitioned self p)
          = Ok (fold_left multiply (map (posterior_of self) gs)
                          (posterior_of self g)).
Proof.
  intros Hp. rewrite partitioned_run. cbn [trace outcome fst snd].
  destruct (parts p) as [|g gs]; [congruence|].
  split; [reflexivity|]. split; [discriminate|].
  exists g, gs. split; reflexivity.
Qed.
(** *** The minimum-information partition *)

Lemma Mip_lt_run (a b : Mip) na nb :
  normalization (partition a) = ret na ->
  normalization (partition b) = ret nb ->
  Mip_lt a b = ret (key_ltb (num_div (ei a) na, ei a) (num_div (ei b) nb, ei b)).
Proof.
  intros Ha Hb. unfold Mip_lt, ei_normalized.
  now rewrite Ha, Hb, !bind_ret_l.
Qed.

Lemma Mip_lt_pure (a b : Mip) na nb :
  normalization (partition a) = ret na ->
  normalization (partition b) = ret nb ->
  Mip_lt a b = ret (mip_ltb a b).
Proof.
  intros Ha Hb. rewrite (Mip_lt_run _ _ Ha Hb).
  unfold mip_ltb, mip_key, norm_of. now rewrite Ha, Hb.
Qed.

Lemma mip_ltb_irrefl (a : Mip) : mip_ltb a a = false.
Proof. apply key_ltb_irrefl. Qed.

Lemma mip_ltb_trans (a b c : Mip) :
  mip_ltb a b = true -> mip_ltb b c = true -> mip_ltb a c = true.
Proof. apply key_ltb_trans. Qed.

Lemma mip_ltb_cotrans (a b c : Mip) :
  mip_ltb a b = true -> mip_ltb a c = true \/ mip_ltb c b = true.
Proof. apply key_ltb_cotrans. Qed.

(** What holds of every generated partition of an ascending node
    sequence. *)
Lemma generated_valid (self : Subsystem) (p : Partition) :
  Sorted Z.le (node_indices self) ->
  In p (generate_partitions (node_indices self)) ->
  indices p = node_indices self /\ parts p <> []
  /\ exists n, normalization p = ret n /\ (1 <= n)%Z.
Proof.
  intros Hs Hp. split; [|split].
  - rewrite (generated_indices _ _ Hp). now apply sorted_ascending.
  - destruct (generated_cases _ _ Hp) as [[_ ->]|(i & a & b & _ & _ & _ & _ & _ & ->)];
      [discriminate|].
    now destruct (Partition_new_pair a b) as [-> | ->].
  - destruct (normalization_generated _ _ Hp) as (n & Hn & H1 & _).
    now exists n.
Qed.

Lemma mip_items_outcome (self : Subsystem) (ps : list Partition) :
  (forall p, In p ps -> indices p = node_indices self /\ parts p <> []) ->
  Forall2 (fun it v => outcome it = Ok v)
          (mip_items self ps) (map (mip_of self) ps).
Proof.
  induction ps as [|p ps IH]; intros Hps; [constructor|].
  cbn [mip_items map]. constructor.
  - destruct (Hps p (or_introl eq_refl)) as [Hi Hp].
    now rewrite (outcome_bind_ok _ _ (EI_partition_returns self p Hi Hp)).
  - apply IH. intros q Hq. apply Hps. now right.
Qed.

(** [find_mip] on an ascending, non-empty node sequence. *)
Lemma find_mip_run (self : Subsystem) :
  node_indices self <> [] -> Sorted Z.le (node_indices self) ->
  exists p0 ps,
    generate_partitions (node_indices self) = p0 :: ps
    /\ outcome (mip self)
       = Ok (min_from mip_ltb (mip_of self p0) (map (mip_of self) ps)).
Proof.
  intros Hne Hs.
  destruct (generate_partitions_head Hne) as (ps & Hgen & _).
  exists (mkPartition [node_indices self]), ps. split; [exact Hgen|].
  assert (Hvalid : forall p, In p (mkPartition [node_indices self] :: ps) ->
            indices p = node_indices self /\ parts p <> []
            /\ exists n, normalization p = ret n /\ (1 <= n)%Z).
  { intros p Hp. rewrite <- Hgen in Hp. now apply generated_valid. }
  assert (HF : Forall2 (fun it v => outcome it = Ok v)
                 (mip_items self (mkPartition [node_indices self] :: ps))
                 (map (mip_of self) (mkPartition [node_indices self] :: ps))).
  { apply mip_items_outcome. intros p Hp.
    destruct (Hvalid p Hp) as (? & ? & _). now split. }
  unfold find_mip. rewrite Hgen.
  fold (mip_items self (mkPartition [node_indices self] :: ps)).
  cbn [mip_items map] in HF |- *.
  apply py_min_outcome; [exact HF|].
  intros a b Ha Hb.
  change (mip_of self (mkPartition [node_indices self]) :: map (mip_of self) ps)
    with (map (mip_of self) (mkPartition [node_indices self] :: ps)) in Ha, Hb.
  apply in_map_iff in Ha as (pa & <- & Ha), Hb as (pb & <- & Hb).
  destruct (Hvalid pa Ha) as (_ & _ & na & Hna & _).
  destruct (Hvalid pb Hb) as (_ & _ & nb & Hnb & _).
  now rewrite (@Mip_lt_pure (mip_of self pa) (mip_of self pb) na nb Hna Hnb).
Qed.
(** Where the result of [find_mip] stands in the enumeration. *)
Lemma find_mip_split (self : Subsystem) :
  node_indices self <> [] -> Sorted Z.le (node_indices self) ->
  exists pm before after,
    generate_partitions (node_indices self) = before ++ pm :: after
    /\ outcome (mip self) = Ok (mip_of self pm)
    /\ (forall p, In p before ->
        mip_ltb (mip_of self pm) (mip_of self p) = true)
    /\ (forall p, In p after ->
        mip_ltb (mip_of self p) (mip_of self pm) = false).
Proof.
  intros Hne Hs.
  destruct (find_mip_run self Hne Hs) as (p0 & ps & Hgen & Hout).
  destruct (min_from_first mip_ltb mip_ltb_trans mip_ltb_cotrans
                           (mip_of self p0) (map (mip_of self) ps))
    as (l1 & l2 & Hsplit & H1 & H2).
  change (mip_of self p0 :: map (mip_of self) ps)
    with (map (mip_of self) (p0 :: ps)) in Hsplit.
  apply map_eq_app in Hsplit as (before & rest & Hps & Hb & Hr).
  apply map_eq_cons in Hr as (pm & after & -> & Hm & Ha).
  exists pm, before, after. rewrite Hgen, Hout, <- Hm.
  repeat split; [exact Hps| |].
  - intros p Hp. rewrite Hm. apply H1. rewrite <- Hb. now apply in_map.
  - intros p Hp. rewrite Hm. apply H2. rewrite <- Ha. now apply in_map.
Qed.

Lemma mip_of_run (self : Subsystem) (p : Partition) :
  Sorted Z.le (node_indices self) ->
  In p (generate_partitions (node_indices self)) ->
  outcome (EI_partition self p) = Ok (ei_of self p)
  /\ exists n, normalization p = ret n /\ (1 <= n)%Z.
Proof.
  intros Hs Hp. destruct (generated_valid self p Hs Hp) as (Hi & Hparts & Hn).
  split; [now apply EI_partition_returns | exact Hn].
Qed.

Lemma Mip_lt_generated (self : Subsystem) (p q : Partition) :
  Sorted Z.le (node_indices self) ->
  In p (generate_partitions (node_indices self)) ->
  In q (generate_partitions (node_indices self)) ->
  outcome (Mip_lt (mip_of self p) (mip_of self q))
  = Ok (mip_ltb (mip_of self p) (mip_of self q)).
Proof.
  intros Hs Hp Hq.
  destruct (mip_of_run self p Hs Hp) as (_ & np & Hnp & _).
  destruct (mip_of_run self q Hs Hq) as (_ & nq & Hnq & _).
  now rewrite (@Mip_lt_pure (mip_of self p) (mip_of self q) np nq Hnp Hnq).
Qed.
(** [find_mip] on an empty node sequence, and on one that is not
    ascending. *)
Lemma find_mip_empty (self : Subsystem) :
  node_indices self = [] -> mip self = ([], Raise ValueError).
Proof. intros E. unfold find_mip. now rewrite E. Qed.

Lemma find_mip_unsorted (self : Subsystem) :
  node_indices self <> [] -> ~ Sorted Z.le (node_indices self) ->
  mip self = ([], Raise AssertionError).
Proof.
  intros Hne Hns.
  destruct (generate_partitions_head Hne) as (ps & Hgen & _).
  unfold find_mip. rewrite Hgen. cbn [map py_min].
  rewrite EI_partition_rejects; [reflexivity|].
  intros Hi. apply Hns.
  assert (Hp : In (mkPartition [node_indices self])
                  (generate_partitions (node_indices self)))
    by (rewrite Hgen; now left).
  rewrite (generated_indices _ _ Hp) in Hi. rewrite <- Hi.
  apply before_ascending, sorted_strongly_sorted;
    eauto using Zltb_asym, Zltb_before_trans.
Qed.

Lemma find_mip_returns_iff (self : Subsystem) :
  (exists m, outcome (mip self) = Ok m)
  <-> node_indices self <> [] /\ Sorted Z.le (node_indices self).
Proof.
  split.
  - intros (m & Hm).
    assert (Hne : node_indices self <> []).
    { intros E. rewrite (find_mip_empty self E) in Hm. discriminate. }
    split; [exact Hne|].
    destruct (list_eq_dec Z.eq_dec (sorted Z.ltb (node_indices self))
                          (node_indices self)) as [E|E].
    + rewrite <- E. apply before_ascending, sorted_strongly_sorted;
        eauto using Zltb_asym, Zltb_before_trans.
    + rewrite find_mip_unsorted in Hm; [discriminate | exact Hne |].
      intros Hs. now apply E, sorted_ascending.
  - intros (Hne & Hs).
    destruct (find_mip_split self Hne Hs) as (pm & _ & _ & _ & Hout & _).
    now exists (mip_of self pm).
Qed.

(** C1. On a non-empty node sequence [find_mip] returns exactly when the
    sequence is ascending.  What it returns is a Mip of a generated partition,
    with the effective information across that partition, and no Mip of a
    generated partition is smaller.  [<] on Mips is the lexicographic
    order on the pair (effective information divided by the
    normalization of the partition, effective information); on rational
    numbers the pair (0.5, 0.3) is smaller than (0.5, 0.4). *)
Theorem find_mip_minimum (self : Subsystem) :
  (node_indices self <> [] ->
   ((exists m, outcome (mip self) = Ok m) <-> Sorted Z.le (node_indices self)))
  /\ (forall m,
        outcome (mip self) = Ok m ->
        subsystem m = self
        /\ In (partition m) (generate_partitions (node_indices self))
        /\ outcome (EI_partition self (partition m)) = Ok (ei m)
        /\ forall p, In p (generate_partitions (node_indices self)) ->
             exists e, outcome (EI_partition self p) = Ok e
                       /\ outcome (Mip_lt (mkMip e p self) m) = Ok false)
  /\ (forall (a b : Mip) na nb,
        normalization (partition a) = ret na ->
        normalization (partition b) = ret nb ->
        ei_normalized a = ret (num_div (ei a) na)
        /\ ei_normalized b = ret (num_div (ei b) nb)
        /\ (outcome (Mip_lt a b) = Ok true <->
            num_ltb (num_div (ei a) na) (num_div (ei b) nb) = true
            \/ (num_eqb (num_div (ei a) na) (num_div (ei b) nb) = true
                /\ num_ltb (ei a) (ei b) = true)))
  /\ key_ltb ((1 # 2)%Q, (3 # 10)%Q) ((1 # 2)%Q, (4 # 10)%Q) = true.
Proof.
  split; [|split; [|split; [|reflexivity]]].
  - intros Hne. rewrite find_mip_returns_iff. tauto.
  - intros m Hm.
    destruct (proj1 (find_mip_returns_iff self) (ex_intro _ m Hm)) as (Hne & Hs).
    destruct (find_mip_split self Hne Hs)
      as (pm & before & after & Hgen & Hout & Hb & Ha).
    rewrite Hm in Hout. injection Hout as ->.
    assert (Hpm : In pm (generate_partitions (node_indices self))).
    { rewrite Hgen. apply in_or_app. right. now left. }
    split; [reflexivity|].
    split; [exact Hpm|]. split; [now apply mip_of_run|].
    intros p Hp. exists (ei_of self p). split; [now apply mip_of_run|].
    fold (mip_of self p). rewrite Mip_lt_generated by assumption. f_equal.
    rewrite Hgen in Hp. apply in_app_or in Hp as [Hp|[<-|Hp]].
    + destruct (mip_ltb (mip_of self p) (mip_of self pm)) eqn:E; [|reflexivity].
      rewrite <- (mip_ltb_irrefl (mip_of self p)). symmetry.
      apply mip_ltb_trans with (mip_of self pm); auto.
    + apply mip_ltb_irrefl.
    + now apply Ha.
  - intros a b na nb Hna Hnb.
    rewrite (Mip_lt_run _ _ Hna Hnb). unfold ei_normalized.
    rewrite Hna, Hnb, !bind_ret_l. split; [reflexivity|]. split; [reflexivity|].
    pose proof (key_ltb_spec (num_div (ei a) na, ei a)
                             (num_div (ei b) nb, ei b)) as Hk.
    cbn [fst snd] in Hk. rewrite <- Hk. cbn [outcome ret snd].
    split; [now intros [= ->] | now intros ->].
Qed.

(** The comparison of two Mips, on their keys. *)
Lemma mip_ltb_keys (a b : Mip) na nb :
  normalization (partition a) = ret na ->
  normalization (partition b) = ret nb ->
  (mip_ltb a b = true <->
   num_ltb (num_div (ei a) na) (num_div (ei b) nb) = true
   \/ (num_eqb (num_div (ei a) na) (num_div (ei b) nb) = true
       /\ num_ltb (ei a) (ei b) = true)).
Proof.
  intros Ha Hb. unfold mip_ltb, mip_key, norm_of. rewrite Ha, Hb.
  cbn [outcome ret snd]. apply key_ltb_spec.
Qed.

(** C10. On a non-empty ascending node sequence [find_mip] returns.  What
    it returns is the Mip of the first partition of the enumeration whose
    pair of keys, (effective information divided by the normalization,
    effective information), is smallest in the lexicographic order: every
    partition that comes earlier has a strictly larger pair of keys, so
    does not tie with the result on both keys, and no later partition has
    a smaller pair.  Hence among the partitions that tie with the result
    on both keys none comes before the one returned.  [<] on Mips is that
    order on the keys. *)
Theorem find_mip_first_minimum (self : Subsystem) :
  (node_indices self <> [] -> Sorted Z.le (node_indices self) ->
   exists m, outcome (mip self) = Ok m)
  /\ (forall m,
        outcome (mip self) = Ok m ->
        exists before after nm,
          generate_partitions (node_indices self)
          = before ++ partition m :: after
          /\ outcome (EI_partition self (partition m)) = Ok (ei m)
          /\ normalization (partition m) = ret nm
          /\ (forall p, In p before ->
              exists e n,
                outcome (EI_partition self p) = Ok e
                /\ normalization p = ret n
                /\ outcome (Mip_lt m (mkMip e p self)) = Ok true
                /\ outcome (Mip_lt (mkMip e p self) m) = Ok false
                /\ (num_ltb (num_div (ei m) nm) (num_div e n) = true
                    \/ (num_eqb (num_div (ei m) nm) (num_div e n) = true
                        /\ num_ltb (ei m) e = true))
                /\ ~ (num_eqb (num_div e n) (num_div (ei m) nm) = true
                      /\ num_eqb e (ei m) = true))
          /\ (forall p, In p after ->
              exists e n,
                outcome (EI_partition self p) = Ok e
                /\ normalization p = ret n
                /\ outcome (Mip_lt (mkMip e p self) m) = Ok false
                /\ ~ (num_ltb (num_div e n) (num_div (ei m) nm) = true
                      \/ (num_eqb (num_div e n) (num_div (ei m) nm) = true
                          /\ num_ltb e (ei m) = true)))
          /\ (forall p e n,
              In p (generate_partitions (node_indices self)) ->
              outcome (EI_partition self p) = Ok e ->
              normalization p = ret n ->
              num_eqb (num_div e n) (num_div (ei m) nm) = true ->
              num_eqb e (ei m) = true ->
              ~ In p before))
  /\ (forall (a b : Mip) na nb,
        normalization (partition a) = ret na ->
        normalization (partition b) = ret nb ->
        (outcome (Mip_lt a b) = Ok true <->
         num_ltb (num_div (ei a) na) (num_div (ei b) nb) = true
         \/ (num_eqb (num_div (ei a) na) (num_div (ei b) nb) = true
             /\ num_ltb (ei a) (ei b) = true))).
Proof.
  split; [intros Hne Hs; now apply find_mip_returns_iff|]. split.
  - intros m Hm.
    destruct (proj1 (find_mip_returns_iff self) (ex_intro _ m Hm)) as (Hne & Hs).
    destruct (find_mip_split self Hne Hs)
      as (pm & before & after & Hgen & Hout & Hb & Ha).
    rewrite Hm in Hout. injection Hout as ->.
    assert (Hin : forall p, In p (before ++ pm :: after) ->
                            In p (generate_partitions (node_indices self))).
    { intros p Hp. now rewrite Hgen. }
    assert (Hpm : In pm (generate_partitions (node_indices self))).
    { apply Hin, in_or_app. right. now left. }
    destruct (mip_of_run self pm Hs Hpm) as (Hei & nm & Hnm & _).
    assert (Hstrict : forall p, In p before ->
              exists e n,
                outcome (EI_partition self p) = Ok e
                /\ normalization p = ret n
                /\ outcome (Mip_lt (mip_of self pm) (mkMip e p self)) = Ok true
                /\ outcome (Mip_lt (mkMip e p self) (mip_of self pm)) = Ok false
                /\ (num_ltb (num_div (ei (mip_of self pm)) nm) (num_div e n) = true
                    \/ (num_eqb (num_div (ei (mip_of self pm)) nm) (num_div e n)
                        = true
                        /\ num_ltb (ei (mip_of self pm)) e = true))
                /\ ~ (num_eqb (num_div e n) (num_div (ei (mip_of self pm)) nm)
                      = true
                      /\ num_eqb e (ei (mip_of self pm)) = true)).
    { intros p Hp.
      assert (Hp' : In p (generate_partitions (node_indices self))).
      { apply Hin, in_or_app. now left. }
      destruct (mip_of_run self p Hs Hp') as (Hep & n & Hn & _).
      exists (ei_of self p), n. split; [exact Hep|]. split; [exact Hn|].
      fold (mip_of self p). rewrite !Mip_lt_generated by assumption.
      pose proof (Hb p Hp) as Hlt. rewrite Hlt.
      assert (Hkeys := proj1 (@mip_ltb_keys (mip_of self pm) (mip_of self p)
                                            nm n Hnm Hn) Hlt).
      cbn [mip_of ei] in Hkeys |- *.
      split; [reflexivity|]. split; [|split; [exact Hkeys|]].
      - f_equal.
        destruct (mip_ltb (mip_of self p) (mip_of self pm)) eqn:E; [|reflexivity].
        rewrite <- (mip_ltb_irrefl (mip_of self p)). symmetry.
        apply mip_ltb_trans with (mip_of self pm); auto.
      - intros [T1 T2]. rewrite num_eqb_sym in T1. rewrite num_eqb_sym in T2.
        rewrite (num_ltb_irrefl _ _ T1), (num_ltb_irrefl _ _ T2) in Hkeys.
        intuition discriminate. }
    exists before, after, nm.
    split; [exact Hgen|]. split; [exact Hei|]. split; [exact Hnm|].
    split; [exact Hstrict|]. split.
    + intros p Hp.
      assert (Hp' : In p (generate_partitions (node_indices self))).
      { apply Hin, in_or_app. right. now right. }
      destruct (mip_of_run self p Hs Hp') as (Hep & n & Hn & _).
      exists (ei_of self p), n. split; [exact Hep|]. split; [exact Hn|].
      fold (mip_of self p). rewrite Mip_lt_generated by assumption.
      pose proof (Ha p Hp) as Hnlt. rewrite Hnlt. split; [reflexivity|].
      intros Hkeys.
      apply (@mip_ltb_keys (mip_of self p) (mip_of self pm) n nm Hn Hnm) in Hkeys.
      congruence.
    + intros p e n Hp He Hn T1 T2 Hbefore.
      destruct (Hstrict p Hbefore) as (e' & n' & He' & Hn' & _ & _ & _ & Hnotie).
      rewrite He in He'. injection He' as <-.
      rewrite Hn in Hn'. injection Hn' as <-.
      apply Hnotie. now split.
  - intros a b na nb Hna Hnb.
    rewrite (Mip_lt_pure a b Hna Hnb). cbn [outcome ret snd].
    rewrite <- (mip_ltb_keys a b Hna Hnb).
    split; [now intros [= ->] | now intros ->].
Qed.
End SubsystemFacts.

(** C3, as stated, fails on a partition with one group that is not the
    node sequence: on the nodes (0, 1) the partition ((0,),) is total,
    [effective_information_partition] raises AssertionError and
    [effective_information] returns. *)
Lemma total_partition_rejected :
  is_total (mkPartition [[0]]%Z) = true
  /\ Independent.EI_partition Independent.two_nodes (mkPartition [[0]]%Z)
     = ([], Raise AssertionError)
  /\ exists v, outcome (Independent.EI Independent.two_nodes None) = Ok v.
Proof.
  split; [reflexivity|]. split; [reflexivity|].
  eexists. reflexivity.
Qed.

Lemma effective_information_partition_total_witness :
  is_total (mkPartition [[0; 1]]%Z) = true
  /\ indices (mkPartition [[0; 1]]%Z) = node_indices Independent.two_nodes
  /\ Independent.EI_partition Independent.two_nodes (mkPartition [[0; 1]]%Z)
     = Independent.EI Independent.two_nodes None.
Proof.
  split; [reflexivity|]. split; [reflexivity|].
  apply (@effective_information_partition_total
           unit (list Q) Q Independent.cause_repertoire
           Independent.max_entropy_distribution Independent.multiply
           Independent.divergence Independent.two_nodes
           (mkPartition [[0; 1]]%Z)); reflexivity.
Defined.

(** C4, as stated, fails: on the nodes (0, 1) the partition ((0,),) has
    other indices than the subsystem, and
    [partitioned_posterior_repertoire] returns the posterior repertoire
    of its group. *)
Lemma partitioned_posterior_repertoire_returns :
  indices (mkPartition [[0]]%Z) <> node_indices Independent.two_nodes
  /\ Independent.partitioned Independent.two_nodes (mkPartition [[0]]%Z)
     = ([PosteriorComputed [0]%Z], Ok [(1 # 2)%Q; (1 # 2)%Q]).
Proof. split; [discriminate | reflexivity]. Qed.

Lemma partitioned_posterior_repertoire_unchecked_witness :
  parts (mkPartition [[0]]%Z) <> []
  /\ outcome (Independent.partitioned Independent.two_nodes (mkPartition [[0]]%Z))
     <> Raise AssertionError.
Proof.
  split; [discriminate|].
  apply (@partitioned_posterior_repertoire_unchecked
           unit (list Q) Independent.cause_repertoire Independent.multiply
           Independent.two_nodes (mkPartition [[0]]%Z)).
  discriminate.
Defined.

Lemma effective_information_partition_assertion_witness :
  indices (mkPartition [[0]]%Z) <> node_indices Independent.two_nodes
  /\ Independent.EI_partition Independent.two_nodes (mkPartition [[0]]%Z)
     = ([], Raise AssertionError)
  /\ indices (mkPartition [[0]; [1]]%Z) = node_indices Independent.two_nodes
  /\ outcome (Independent.EI_partition Independent.two_nodes
                                       (mkPartition [[0]; [1]]%Z))
     <> Raise AssertionError.
Proof.
  split; [discriminate|]. split.
  - apply (@effective_information_partition_assertion
             unit (list Q) Q Independent.cause_repertoire
             Independent.max_entropy_distribution Independent.multiply
             Independent.divergence Independent.two_nodes
             (mkPartition [[0]]%Z)).
    discriminate.
  - split; [reflexivity|].
    apply (@effective_information_partition_assertion
             unit (list Q) Q Independent.cause_repertoire
             Independent.max_entropy_distribution Independent.multiply
             Independent.divergence Independent.two_nodes
             (mkPartition [[0]; [1]]%Z)).
    reflexivity.
Defined.

Lemma find_mip_minimum_witness :
  outcome (Independent.mip Independent.two_nodes) = Ok two_nodes_result
  /\ partition two_nodes_result = mkPartition [[0; 1]]%Z
  /\ In (partition two_nodes_result) (generate_partitions [0; 1]%Z).
Proof.
  assert (Hm : outcome (Independent.mip Independent.two_nodes)
               = Ok two_nodes_result) by (vm_compute; reflexivity).
  split; [exact Hm|]. split; [reflexivity|].
  destruct (@find_mip_minimum
              unit (list Q) Q Q_Number Independent.cause_repertoire
              Independent.max_entropy_distribution Independent.multiply
              Independent.divergence Independent.two_nodes)
    as (_ & Hmin & _).
  destruct (Hmin two_nodes_result Hm) as (_ & Hin & _). exact Hin.
Defined.

Lemma find_mip_first_minimum_witness :
  outcome (Independent.mip Independent.two_nodes) = Ok two_nodes_result
  /\ exists before after,
       generate_partitions [0; 1]%Z
       = before ++ partition two_nodes_result :: after
       /\ ~ In (mkPartition [[0]; [1]]%Z) before.
Proof.
  assert (Hm : outcome (Independent.mip Independent.two_nodes)
               = Ok two_nodes_result) by (vm_compute; reflexivity).
  split; [exact Hm|].
  destruct (@find_mip_first_minimum
              unit (list Q) Q Q_Number Independent.cause_repertoire
              Independent.max_entropy_distribution Independent.multiply
              Independent.divergence Independent.two_nodes)
    as (_ & Hfirst & _).
  destruct (Hfirst two_nodes_result Hm)
    as (before & after & nm & Hgen & _ & Hnm & _ & _ & Htie).
  exists before, after. split; [exact Hgen|].
  assert (Hnm' : nm = 2%Z).
  { assert (E : normalization (partition two_nodes_result) = ret 2%Z)
      by reflexivity.
    rewrite E in Hnm. now injection Hnm. }
  subst nm.
  assert (Hin : In (mkPartition [[0]; [1]]%Z)
                   (generate_partitions (node_indices Independent.two_nodes))).
  { vm_compute. right. left. reflexivity. }
  destruct (outcome (effective_information_partition
                       Independent.cause_repertoire
                       Independent.max_entropy_distribution
                       Independent.multiply Independent.divergence
                       Independent.two_nodes (mkPartition [[0]; [1]]%Z)))
    as [e|x] eqn:He; [|vm_compute in He; discriminate].
  apply (Htie (mkPartition [[0]; [1]]%Z) e 1%Z Hin He eq_refl);
    vm_compute in He; injection He as <-; reflexivity.
Defined.

(** In the system of two independent nodes both partitions tie at 0, and
    [find_mip] returns the first, the total partition. *)
Example two_nodes_mip :
  exists e, outcome (Independent.mip Independent.two_nodes)
            = Ok (mkMip e (mkPartition [[0; 1]]%Z) Independent.two_nodes)
            /\ Qeq_bool e 0 = true.
Proof. eexists. split; [vm_compute; reflexivity | reflexivity]. Qed.

(** ** Relative entropy *)

Section Entropy.
Local Open Scope R_scope.

Lemma log_bound x y :
  0 < x -> 0 < y ->
  x - y <= x * ln (x / y) /\ (x * ln (x / y) = x - y -> x = y).
Proof.
  intros Hx Hy.
  assert (Ht : 0 < y / x) by (apply Rdiv_lt_0_compat; assumption).
  assert (Hln : ln (x / y) = - ln (y / x)).
  { rewrite <- ln_Rinv by exact Ht. f_equal. field. split; lra. }
  assert (Hyx : y / x * x = y) by (field; lra).
  rewrite Hln. destruct (Req_dec_T (ln (y / x)) 0) as [E|E].
  - assert (y / x = 1).
    { apply ln_inv; [exact Ht | lra | now rewrite ln_1]. }
    rewrite E. assert (y = x) by (rewrite <- Hyx; nra). split; intros; lra.
  - pose proof (exp_ineq1 _ E) as Hexp. rewrite exp_ln in Hexp by exact Ht.
    assert ((1 + ln (y / x)) * x < y / x * x)
      by (apply Rmult_lt_compat_r; assumption).
    split; [nra | intros; nra].
Qed.

(** One term of the relative entropy of a distribution against
    positive weights. *)
Lemma rel_entr_bound x y :
  0 <= x -> 0 < y ->
  exists t, rel_entr x y = Finite t /\ x - y <= t /\ (t = x - y -> x = y).
Proof.
  intros Hx Hy. unfold rel_entr.
  destruct (Rlt_dec 0 x) as [Hpos|Hnpos].
  - destruct (Rlt_dec 0 y) as [_|]; [|contradiction].
    exists (x * ln (x / y)). split; [reflexivity|]. now apply log_bound.
  - destruct (Req_dec_T x 0) as [->|]; [|lra].
    destruct (Rle_dec 0 y) as [_|]; [|lra].
    exists 0. split; [reflexivity|]. split; intros; lra.
Qed.

Lemma rel_entr_same x : 0 < x -> rel_entr x x = Finite 0.
Proof.
  intros Hx. unfold rel_entr.
  destruct (Rlt_dec 0 x); [|contradiction].
  replace (x / x) with 1 by (field; lra). now rewrite ln_1, Rmult_0_r.
Qed.

(** Gibbs' inequality, term by term. *)
Lemma relative_entropy_bound p : forall q,
  length p = length q -> Forall (Rle 0) p -> Forall (Rlt 0) q ->
  exists s,
    xsum (map (fun xy => rel_entr (fst xy) (snd xy)) (combine p q)) = Finite s
    /\ Rsum p - Rsum q <= s
    /\ (s = Rsum p - Rsum q -> p = q).
Proof.
  induction p as [|x p IH]; intros [|y q] Hlen Hp Hq; try discriminate.
  - exists 0. simpl. split; [reflexivity|]. split; [lra | reflexivity].
  - inversion Hp as [|? ? Hx Hp']; inversion Hq as [|? ? Hy Hq']; subst.
    injection Hlen as Hlen.
    destruct (IH q Hlen Hp' Hq') as (s & Hs & Hle & Heq).
    destruct (rel_entr_bound Hx Hy) as (t & Ht & Htle & Hteq).
    exists (t + s). cbn [combine map xsum fold_right fst snd Rsum].
    fold (xsum (map (fun xy => rel_entr (fst xy) (snd xy)) (combine p q))).
    fold (Rsum p) (Rsum q).
    rewrite Ht, Hs. split; [reflexivity|]. split; [lra|].
    intros E. f_equal; [apply Hteq | apply Heq]; lra.
Qed.

Lemma relative_entropy_same p :
  Forall (Rlt 0) p ->
  xsum (map (fun xy => rel_entr (fst xy) (snd xy)) (combine p p)) = Finite 0.
Proof.
  induction 1 as [|x p Hx _ IH]; [reflexivity|].
  cbn [combine map xsum fold_right fst snd].
  fold (xsum (map (fun xy => rel_entr (fst xy) (snd xy)) (combine p p))).
  rewrite IH, rel_entr_same by exact Hx. simpl. f_equal. lra.
Qed.

Lemma normalize_unit p : Rsum p = 1 -> normalize p = p.
Proof.
  intros Hp. unfold normalize. rewrite Hp.
  rewrite <- (map_id p) at 2. apply map_ext. intros x. apply Rdiv_1_r.
Qed.

Lemma Rsum_repeat c n : Rsum (repeat c n) = INR n * c.
Proof.
  induction n as [|n IH]; [simpl; lra|].
  cbn [repeat Rsum fold_right]. fold (Rsum (repeat c n)).
  rewrite IH, S_INR. lra.
Qed.

Lemma pow2_INR_pos k : 0 < INR (2 ^ k).
Proof. apply lt_0_INR, pow2_pos. Qed.

Lemma uniform_distribution_spec mechanism n :
  distribution (length mechanism) (uniform_distribution mechanism n)
  /\ Forall (Rlt 0) (uniform_distribution mechanism n).
Proof.
  unfold distribution, uniform_distribution.
  pose proof (pow2_INR_pos (length mechanism)) as Hpos.
  assert (Hc : 0 < 1 / INR (2 ^ length mechanism))
    by (apply Rdiv_lt_0_compat; lra).
  repeat split.
  - apply repeat_length.
  - apply Forall_forall. intros x Hx. apply repeat_spec in Hx. lra.
  - rewrite Rsum_repeat. field. lra.
  - apply Forall_forall. intros x Hx. apply repeat_spec in Hx. lra.
Qed.

Lemma ln2_pos : 0 < ln 2.
Proof. pose proof ln_lt_2. lra. Qed.

(** The relative entropy of a distribution against positive weights of
    the same total. *)
Lemma entropy_bits_bound p q :
  length p = length q -> Forall (Rle 0) p -> Rsum p = 1 ->
  Forall (Rlt 0) q -> Rsum q = 1 ->
  exists v, entropy_bits p q = Finite v /\ 0 <= v /\ (v = 0 <-> p = q).
Proof.
  intros Hlen Hp Hsp Hq Hsq. unfold entropy_bits.
  rewrite !normalize_unit by assumption.
  destruct (relative_entropy_bound Hlen Hp Hq) as (s & Hs & Hle & Heq).
  rewrite Hsp, Hsq in Hle, Heq. pose proof ln2_pos as Hln.
  exists (s / ln 2). rewrite Hs. split; [reflexivity|]. split.
  - apply Rmult_le_pos; [lra|]. apply Rlt_le, Rinv_0_lt_compat, Hln.
  - split.
    + intros Hv. apply Heq.
      assert (s = s / ln 2 * ln 2) by (field; lra). nra.
    + intros <-. rewrite relative_entropy_same in Hs by exact Hq.
      injection Hs as <-. field. lra.
Qed.
End Entropy.

(** C8. When the causal model gives a probability distribution over the
    joint states of the mechanism, [effective_information] returns the
    relative entropy, in bits, of the posterior repertoire against the
    prior repertoire: a real number that is at least 0, and 0 exactly
    when the two repertoires are equal. *)
Theorem effective_information_nonnegative
        (Network : Type)
        (cause_repertoire :
           Network -> list Z -> list Z -> list Z -> list Z -> list R)
        (self : Subsystem_2_0 Network) (mechanism : option (list Z)) :
  distribution
    (length (default_mechanism self mechanism))
    (cause_repertoire (network self) (state self) (node_indices self)
                      (default_mechanism self mechanism)
                      (default_mechanism self mechanism)) ->
  exists pk qk v,
    outcome (posterior_repertoire cause_repertoire self mechanism) = Ok pk
    /\ outcome (prior_repertoire uniform_distribution self mechanism) = Ok qk
    /\ outcome (effective_information cause_repertoire uniform_distribution
                                      entropy_bits self mechanism)
       = Ok (Finite v)
    /\ (0 <= v)%R
    /\ (v = 0%R <-> pk = qk).
Proof.
  intros (Hlen & Hpos & Hsum).
  destruct (uniform_distribution_spec (default_mechanism self mechanism)
                                      (Subsystem_len self))
    as ((Hulen & _ & Husum) & Hupos).
  destruct (@entropy_bits_bound
              (cause_repertoire (network self) (state self) (node_indices self)
                                (default_mechanism self mechanism)
                                (default_mechanism self mechanism))
              (uniform_distribution (default_mechanism self mechanism)
                                    (Subsystem_len self)))
    as (v & Hv & Hle & Hiff); try assumption; [congruence|].
  eexists _, _, v. rewrite posterior_repertoire_run, prior_repertoire_run,
                     effective_information_run.
  cbn [outcome snd]. split; [reflexivity|]. split; [reflexivity|].
  unfold posterior_of. rewrite Hv. repeat split; tauto.
Qed.

Lemma effective_information_nonnegative_witness :
  distribution 1 [1%R; 0%R]
  /\ exists v,
       outcome (effective_information certain uniform_distribution entropy_bits
                                      (mkSubsystem tt [1]%Z [0]%Z) None)
       = Ok (Finite v)
       /\ (0 <= v)%R.
Proof.
  assert (Hd : distribution 1 [1%R; 0%R]).
  { unfold distribution. split; [reflexivity|]. split.
    - repeat constructor; lra.
    - simpl. lra. }
  split; [exact Hd|].
  destruct (@effective_information_nonnegative
              unit certain (mkSubsystem tt [1]%Z [0]%Z) None Hd)
    as (pk & qk & v & _ & _ & Hv & Hle & _).
  exists v. split; [exact Hv | exact Hle].
Defined.

(** * Further properties *)

(** ** Partitions as values *)

Lemma Permutation_concat A (l l' : list (list A)) :
  Permutation l l' -> Permutation (concat l) (concat l').
Proof.
  induction 1 as [|x l l' _ IH|x y l|l l' l'' _ IH1 _ IH2]; simpl.
  - reflexivity.
  - now apply Permutation_app_head.
  - rewrite !app_assoc. apply Permutation_app_tail, Permutation_app_comm.
  - now transitivity (concat l').
Qed.

Lemma tuple_sorted_strongly (ps : list (list Z)) :
  StronglySorted (before tuple_ltb) (sorted tuple_ltb ps).
Proof.
  apply sorted_strongly_sorted; eauto using tuple_ltb_asym, tuple_before_trans.
Qed.

(** X1. The constructor keeps the groups it is given, each as often as
    given, and stores them in ascending tuple order; a Partition rebuilt
    from its own groups is the same Partition. *)
Theorem Partition_new_canonical (ps : list (list Z)) :
  Permutation (parts (Partition_new ps)) ps
  /\ StronglySorted (before tuple_ltb) (parts (Partition_new ps))
  /\ Partition_len (Partition_new ps) = length ps
  /\ Partition_new (parts (Partition_new ps)) = Partition_new ps.
Proof.
  unfold Partition_len. cbn [Partition_new parts].
  split; [apply sorted_perm|]. split; [apply tuple_sorted_strongly|].
  split; [apply Permutation_length, sorted_perm|].
  unfold Partition_new. f_equal.
  apply sorted_fixpoint;
    eauto using tuple_ltb_asym, tuple_before_trans, tuple_before_antisym,
                tuple_sorted_strongly.
Qed.

(** X2. [==] on Partitions holds exactly when the stored groups are the
    same, and Partitions that are [==] have the same hash. *)
Theorem Partition_eq_hash (p q : Partition) :
  (Partition_eq p q = true <-> p = q)
  /\ (Partition_eq p q = true ->
      forall hash, Partition_hash hash p = Partition_hash hash q).
Proof.
  assert (Heq : Partition_eq p q = true <-> p = q).
  { unfold Partition_eq. rewrite parts_eqb_eq.
    destruct p as [ps], q as [qs]; cbn [parts]. split; congruence. }
  split; [exact Heq|]. intros E hash. apply Heq in E. now subst q.
Qed.

Lemma Partition_eq_hash_witness :
  Partition_eq (Partition_new [[2]; [0; 1]]%Z) (mkPartition [[0; 1]; [2]]%Z) = true
  /\ forall hash, Partition_hash hash (Partition_new [[2]; [0; 1]]%Z)
                  = Partition_hash hash (mkPartition [[0; 1]; [2]]%Z).
Proof.
  split; [reflexivity|].
  apply (Partition_eq_hash (Partition_new [[2]; [0; 1]]%Z)
                           (mkPartition [[0; 1]; [2]]%Z)).
  reflexivity.
Defined.

(** ** Partitions as sequences *)

Lemma tuple_getitem_nonneg A (t : list A) (x : Z) (d : A) :
  (0 <= x < Z.of_nat (length t))%Z ->
  tuple_getitem t x = Found (nth (Z.to_nat x) t d).
Proof.
  intros Hx. unfold tuple_getitem.
  replace (x <? 0)%Z with false by lia.
  replace ((x <? 0)%Z || (Z.of_nat (length t) <=? x)%Z) with false
    by (symmetry; apply orb_false_iff; lia).
  destruct (nth_error t (Z.to_nat x)) as [a|] eqn:E.
  - now rewrite (nth_error_nth _ _ d E).
  - apply nth_error_None in E. lia.
Qed.

Lemma tuple_getitem_negative A (t : list A) (x : Z) (d : A) :
  (- Z.of_nat (length t) <= x < 0)%Z ->
  tuple_getitem t x = Found (nth (Z.to_nat (x + Z.of_nat (length t))) t d).
Proof.
  intros Hx. unfold tuple_getitem. cbv zeta.
  destruct (x <? 0)%Z eqn:E; [|lia].
  destruct ((x + Z.of_nat (length t) <? 0)%Z
            || (Z.of_nat (length t) <=? x + Z.of_nat (length t))%Z) eqn:E';
    [apply orb_true_iff in E'; lia|].
  destruct (nth_error t (Z.to_nat (x + Z.of_nat (length t)))) as [a|] eqn:E''.
  - now rewrite (nth_error_nth _ _ d E'').
  - apply nth_error_None in E''. lia.
Qed.

Lemma tuple_getitem_outside A (t : list A) (x : Z) :
  (x < - Z.of_nat (length t) \/ Z.of_nat (length t) <= x)%Z ->
  tuple_getitem t x = IndexError.
Proof.
  intros Hx. unfold tuple_getitem.
  destruct (x <? 0)%Z eqn:E.
  - replace ((x + Z.of_nat (length t) <? 0)%Z
             || (Z.of_nat (length t) <=? x + Z.of_nat (length t))%Z) with true;
      [reflexivity|].
    symmetry. apply orb_true_iff. lia.
  - replace ((x <? 0)%Z || (Z.of_nat (length t) <=? x)%Z) with true;
      [reflexivity|].
    symmetry. apply orb_true_iff. lia.
Qed.

(** X3. Indexing a Partition with an int: an index from 0 to len - 1
    gives the group at that place, an index from -len to -1 the group that
    far from the end, and any other index raises IndexError. *)
Theorem Partition_getitem_spec (p : Partition) (x : Z) :
  ((0 <= x < Z.of_nat (Partition_len p))%Z ->
   Partition_getitem p x = Found (nth (Z.to_nat x) (parts p) []))
  /\ ((- Z.of_nat (Partition_len p) <= x < 0)%Z ->
      Partition_getitem p x
      = Found (nth (Z.to_nat (x + Z.of_nat (Partition_len p))) (parts p) []))
  /\ ((x < - Z.of_nat (Partition_len p) \/ Z.of_nat (Partition_len p) <= x)%Z ->
      Partition_getitem p x = IndexError).
Proof.
  unfold Partition_getitem, Partition_len. split; [|split].
  - apply tuple_getitem_nonneg.
  - apply tuple_getitem_negative.
  - apply tuple_getitem_outside.
Qed.

Lemma Partition_getitem_spec_witness :
  Partition_getitem (mkPartition [[0]; [1; 2]]%Z) (-1) = Found [1; 2]%Z
  /\ Partition_getitem (mkPartition [[0]; [1; 2]]%Z) 2 = IndexError.
Proof.
  split.
  - apply (Partition_getitem_spec (mkPartition [[0]; [1; 2]]%Z) (-1)).
    vm_compute. split; [discriminate | reflexivity].
  - apply (Partition_getitem_spec (mkPartition [[0]; [1; 2]]%Z) 2).
    right. vm_compute. discriminate.
Defined.

Lemma Sequence_iter_from A (suf : list A) : forall (pre : list A) (fuel : nat),
  length suf < fuel ->
  Sequence_iter fuel (tuple_getitem (pre ++ suf)) (Z.of_nat (length pre))
  = Some suf.
Proof.
  induction suf as [|v suf IH]; intros pre fuel Hfuel;
    (destruct fuel as [|fuel]; [simpl in Hfuel; lia|]); cbn [Sequence_iter].
  - rewrite tuple_getitem_outside; [reflexivity|].
    right. rewrite app_nil_r. lia.
  - rewrite (@tuple_getitem_nonneg _ (pre ++ v :: suf) _ v)
      by (rewrite length_app; simpl; lia).
    rewrite Nat2Z.id, app_nth2, Nat.sub_diag by lia. cbn [nth].
    replace (Z.of_nat (length pre) + 1)%Z with (Z.of_nat (length (pre ++ [v])))
      by (rewrite length_app; simpl; lia).
    replace (pre ++ v :: suf) with ((pre ++ [v]) ++ suf)
      by (now rewrite <- app_assoc).
    rewrite IH by (simpl in Hfuel; lia). reflexivity.
Qed.

(** X4. Iterating over a Partition, as [for p in self] does, ends and
    yields the stored groups in order. *)
Theorem Partition_iter (p : Partition) (fuel : nat) :
  Partition_len p < fuel ->
  Sequence_iter fuel (Partition_getitem p) 0 = Some (parts p).
Proof.
  intros Hfuel. unfold Partition_getitem.
  apply (Sequence_iter_from (parts p) [] Hfuel).
Qed.

Lemma Partition_iter_witness :
  Partition_len (mkPartition [[0]; [1; 2]]%Z) < 3
  /\ Sequence_iter 3 (Partition_getitem (mkPartition [[0]; [1; 2]]%Z)) 0
     = Some [[0]; [1; 2]]%Z.
Proof.
  assert (H : Partition_len (mkPartition [[0]; [1; 2]]%Z) < 3)
    by (vm_compute; lia).
  split; [exact H|].
  apply (Partition_iter (mkPartition [[0]; [1; 2]]%Z) H).
Defined.

(** ** Indices and normalization *)

Lemma indices_ascending (p : Partition) : Sorted Z.le (indices p).
Proof.
  apply before_ascending, sorted_strongly_sorted;
    eauto using Zltb_asym, Zltb_before_trans.
Qed.

(** X5. [indices] is ascending and holds the nodes of all groups, each as
    often as the groups hold it; for a Partition built from groups it is
    the sorted concatenation of those groups, in whatever order they were
    given. *)
Theorem indices_sorted_union (ps : list (list Z)) (p : Partition) :
  Sorted Z.le (indices p)
  /\ Permutation (indices p) (concat (parts p))
  /\ length (indices p) = length (concat (parts p))
  /\ indices (Partition_new ps) = sorted Z.ltb (concat ps).
Proof.
  split; [apply indices_ascending|].
  split; [apply sorted_perm|].
  split; [apply Permutation_length, sorted_perm|].
  unfold indices. cbn [Partition_new parts].
  apply sorted_of_perm;
    eauto using Zltb_asym, Zltb_before_trans, Zltb_before_antisym.
  apply Permutation_concat, sorted_perm.
Qed.

(** X6. Degenerate partitions: with no group at all [normalization]
    raises ValueError, the [min] of an empty sequence; with two or more
    groups one of which is empty it is 0. *)
Theorem normalization_degenerate (p : Partition) :
  (parts p = [] -> normalization p = raise ValueError)
  /\ (2 <= Partition_len p -> In [] (parts p) -> normalization p = ret 0%Z).
Proof.
  split.
  - intros E. unfold normalization, is_total, Partition_len. now rewrite E.
  - intros Hk Hin.
    destruct (normalization_many p Hk) as (m & Hn & Hm & Hle).
    rewrite Hn. f_equal.
    apply in_map_iff in Hm as (g & <- & Hg).
    specialize (Hle [] Hin). simpl in Hle. lia.
Qed.

Lemma normalization_degenerate_witness :
  2 <= Partition_len (Partition_new [[]; [1; 2]]%Z)
  /\ In [] (parts (Partition_new [[]; [1; 2]]%Z))
  /\ normalization (Partition_new [[]; [1; 2]]%Z) = ret 0%Z.
Proof.
  assert (Hk : 2 <= Partition_len (Partition_new [[]; [1; 2]]%Z))
    by (vm_compute; lia).
  assert (Hin : In [] (parts (Partition_new [[]; [1; 2]]%Z)))
    by (vm_compute; now left).
  split; [exact Hk|]. split; [exact Hin|].
  apply (normalization_degenerate (Partition_new [[]; [1; 2]]%Z)); assumption.
Defined.

Lemma concat_length_bound (l : list (list Z)) (m : Z) :
  (forall g, In g l -> m <= Z.of_nat (length g))%Z ->
  (Z.of_nat (length l) * m <= Z.of_nat (length (concat l)))%Z.
Proof.
  induction l as [|g l IH]; intros Hm; [simpl; lia|].
  cbn [concat length]. rewrite length_app.
  pose proof (Hm g (or_introl eq_refl)).
  assert (Z.of_nat (length l) * m <= Z.of_nat (length (concat l)))%Z
    by (apply IH; intros; apply Hm; now right).
  lia.
Qed.

(** X7. With k >= 2 groups the smallest group holds at most a k-th of the
    nodes, so k times the normalization is at most (k - 1) times the
    number of nodes; for two groups the normalization is at most half the
    number of nodes. *)
Theorem normalization_bound (p : Partition) :
  2 <= Partition_len p ->
  exists v,
    normalization p = ret v
    /\ (0 <= v)%Z
    /\ (Z.of_nat (Partition_len p) * v
        <= (Z.of_nat (Partition_len p) - 1) * Z.of_nat (length (indices p)))%Z
    /\ (Partition_len p = 2 -> (2 * v <= Z.of_nat (length (indices p)))%Z).
Proof.
  intros Hk. destruct (normalization_many p Hk) as (m & Hn & Hm & Hle).
  exists ((Z.of_nat (Partition_len p) - 1) * m)%Z. split; [exact Hn|].
  assert (H0 : (0 <= m)%Z).
  { apply in_map_iff in Hm as (g & <- & _). lia. }
  pose proof (concat_length_bound (parts p) Hle) as Hsum.
  fold (Partition_len p) in Hsum.
  replace (length (indices p)) with (length (concat (parts p)))
    by (symmetry; apply Permutation_length, sorted_perm).
  split; [nia|]. split; [nia|].
  intros E. rewrite E in *. change (Z.of_nat 2) with 2%Z in *. lia.
Qed.

Lemma normalization_bound_witness :
  2 <= Partition_len (mkPartition [[0]; [1; 2]]%Z)
  /\ exists v, normalization (mkPartition [[0]; [1; 2]]%Z) = ret v
               /\ (2 * v <= 3)%Z.
Proof.
  assert (Hk : 2 <= Partition_len (mkPartition [[0]; [1; 2]]%Z))
    by (vm_compute; lia).
  split; [exact Hk|].
  destruct (normalization_bound (mkPartition [[0]; [1; 2]]%Z) Hk)
    as (v & Hv & _ & _ & H2).
  exists v. split; [exact Hv|]. apply H2. reflexivity.
Defined.

(** ** Requests made while taking a minimum *)

Lemma trace_bind_ok A B (m : M A) (f : A -> M B) a :
  outcome m = Ok a -> trace (bind m f) = trace m ++ trace (f a).
Proof.
  destruct m as [t r]. cbn [outcome snd]. intros ->.
  unfold bind. destruct (f a). reflexivity.
Qed.

Lemma trace_bind_ret A B (m : M A) (f : A -> B) :
  trace (bind m (fun x => ret (f x))) = trace m.
Proof.
  destruct m as [t [a|e]]; cbn; [apply app_nil_r | reflexivity].
Qed.

Lemma outcome_bind_ret A B (m : M A) (f : A -> B) :
  outcome (bind m (fun x => ret (f x)))
  = match outcome m with
    | Ok a => Ok (f a)
    | Raise e => Raise e
    end.
Proof. destruct m as [t [a|e]]; reflexivity. Qed.

Lemma min_loop_trace A (lt : A -> A -> M bool) (ltb : A -> A -> bool) its :
  forall vals best,
    Forall2 (fun it v => outcome it = Ok v) its vals ->
    (forall a b, In a (best :: vals) -> In b (best :: vals) ->
                 lt a b = ret (ltb a b)) ->
    trace (min_loop lt best its) = concat (map (@trace A) its).
Proof.
  induction its as [|it its IH]; intros vals best HF Hlt;
    inversion HF as [|? v ? vals' Hit HF']; subst; cbn [min_loop map concat];
    [reflexivity|].
  rewrite (trace_bind_ok _ _ Hit). f_equal.
  rewrite (Hlt v best (or_intror (or_introl eq_refl)) (or_introl eq_refl)).
  rewrite bind_ret_l. apply (IH vals'); [exact HF'|].
  intros a b Ha Hb. apply Hlt.
  - destruct Ha as [Ha|Ha]; [|now right; right].
    destruct (ltb v best); subst; simpl; auto.
  - destruct Hb as [Hb|Hb]; [|now right; right].
    destruct (ltb v best); subst; simpl; auto.
Qed.

Lemma py_min_trace A (lt : A -> A -> M bool) (ltb : A -> A -> bool) it its v vs :
  Forall2 (fun it v => outcome it = Ok v) (it :: its) (v :: vs) ->
  (forall a b, In a (v :: vs) -> In b (v :: vs) -> lt a b = ret (ltb a b)) ->
  trace (py_min lt (it :: its)) = concat (map (@trace A) (it :: its)).
Proof.
  intros HF Hlt. inversion HF as [|? ? ? ? Hit Hits]; subst.
  cbn [py_min map concat]. rewrite (trace_bind_ok _ _ Hit). f_equal.
  now apply (min_loop_trace lt ltb Hits).
Qed.

Lemma flat_map_length_const A B (f : A -> list B) (c : nat) (l : list A) :
  (forall x, In x l -> length (f x) = c) ->
  length (flat_map f l) = c * length l.
Proof.
  induction l as [|x l IH]; intros Hf; cbn [flat_map length]; [lia|].
  rewrite length_app, (Hf x (or_introl eq_refl)), IH by (intros; apply Hf; now right).
  lia.
Qed.

(** ** Scoring a partition and searching for the minimum *)

Section SubsystemMore.
Variables Network repertoire num : Type.
Context `{Number num}.
Variable cause_repertoire :
  Network -> list Z -> list Z -> list Z -> list Z -> repertoire.
Variable max_entropy_distribution : list Z -> nat -> repertoire.
Variable multiply : repertoire -> repertoire -> repertoire.
Variable entropy : repertoire -> repertoire -> num.

Local Abbreviation Subsystem := (Subsystem_2_0 Network).
Local Abbreviation Mip := (Mip_2_0 Network num).
Local Abbreviation partitioned :=
  (partitioned_posterior_repertoire cause_repertoire multiply).
Local Abbreviation EI :=
  (effective_information cause_repertoire max_entropy_distribution entropy).
Local Abbreviation EI_partition :=
  (effective_information_partition cause_repertoire max_entropy_distribution
                                   multiply entropy).
Local Abbreviation mip :=
  (find_mip cause_repertoire max_entropy_distribution multiply entropy).
Local Abbreviation Phi :=
  (phi cause_repertoire max_entropy_distribution multiply entropy).
Local Abbreviation posterior_of := (posterior_of cause_repertoire).
Local Abbreviation ei_of :=
  (ei_of cause_repertoire max_entropy_distribution multiply entropy).
Local Abbreviation mip_of :=
  (mip_of cause_repertoire max_entropy_distribution multiply entropy).
Local Abbreviation mip_items :=
  (mip_items cause_repertoire max_entropy_distribution multiply entropy).
Local Abbreviation mip_ltb := (@mip_ltb Network num _).

(** X8. Across a partition that passes the check and is not total,
    [effective_information_partition] requests the posterior repertoire of
    the whole system and then of each group in stored order, never the
    prior, and returns the entropy of the first against the product of the
    others; with no group at all the product fails with TypeError. *)
Theorem effective_information_partition_split
        (self : Subsystem) (p : Partition) :
  indices p = node_indices self -> is_total p = false ->
  trace (EI_partition self p)
  = PosteriorComputed (node_indices self) :: map PosteriorComputed (parts p)
  /\ (forall g gs,
        parts p = g :: gs ->
        outcome (EI_partition self p)
        = Ok (entropy (posterior_of self (node_indices self))
                      (fold_left multiply (map (posterior_of self) gs)
                                 (posterior_of self g))))
  /\ (parts p = [] -> outcome (EI_partition self p) = Raise TypeError).
Proof.
  intros Hi Ht.
  rewrite (EI_partition_split cause_repertoire max_entropy_distribution
                              multiply entropy self p Hi Ht).
  cbn [trace outcome fst snd]. split; [reflexivity|]. split.
  - intros g gs E. rewrite E. unfold ei_of. now rewrite Ht, E.
  - now intros ->.
Qed.

(** The requests that scoring one generated partition makes. *)
Lemma generated_requests (self : Subsystem) (p : Partition) :
  Sorted Z.le (node_indices self) ->
  In p (generate_partitions (node_indices self)) ->
  trace (EI_partition self p)
  = PosteriorComputed (node_indices self)
    :: (if is_total p then [PriorComputed (node_indices self)]
        else map PosteriorComputed (parts p)).
Proof.
  intros Hs Hp. destruct (generated_valid self p Hs Hp) as (Hi & _ & _).
  destruct (is_total p) eqn:Ht.
  - now rewrite (EI_partition_total cause_repertoire max_entropy_distribution
                                    multiply entropy self p Hi Ht).
  - now rewrite (EI_partition_split cause_repertoire max_entropy_distribution
                                    multiply entropy self p Hi Ht).
Qed.

Lemma mip_items_trace (self : Subsystem) (ps : list Partition) :
  concat (map (@trace Mip) (mip_items self ps))
  = flat_map (fun p => trace (EI_partition self p)) ps.
Proof.
  induction ps as [|p ps IH]; [reflexivity|].
  unfold mip_items in *. cbn [map concat flat_map].
  rewrite trace_bind_ret. f_equal. exact IH.
Qed.

(** X9. On a non-empty ascending node sequence [find_mip] scores the
    generated partitions in order and keeps nothing between them: for each
    partition it requests the posterior repertoire of the whole system
    again, then the prior for the total partition or the posterior of each
    group otherwise, and the comparisons request nothing.  For n nodes
    that makes 3 * 2^(n-1) - 1 requests. *)
Theorem find_mip_requests (self : Subsystem) :
  node_indices self <> [] -> Sorted Z.le (node_indices self) ->
  trace (mip self)
  = flat_map (fun p =>
                PosteriorComputed (node_indices self)
                :: (if is_total p then [PriorComputed (node_indices self)]
                    else map PosteriorComputed (parts p)))
             (generate_partitions (node_indices self))
  /\ length (trace (mip self)) = 3 * 2 ^ (length (node_indices self) - 1) - 1.
Proof.
  intros Hne Hs.
  destruct (generate_partitions_head Hne) as (ps & Hgen & Hlen & Hrest).
  assert (Hvalid : forall p, In p (mkPartition [node_indices self] :: ps) ->
            indices p = node_indices self /\ parts p <> []
            /\ exists n, normalization p = ret n /\ (1 <= n)%Z).
  { intros p Hp. rewrite <- Hgen in Hp. now apply generated_valid. }
  assert (HF : Forall2 (fun it v => outcome it = Ok v)
                 (mip_items self (mkPartition [node_indices self] :: ps))
                 (map (mip_of self) (mkPartition [node_indices self] :: ps))).
  { apply mip_items_outcome. intros p Hp.
    destruct (Hvalid p Hp) as (? & ? & _). now split. }
  assert (Htrace : trace (mip self)
                   = flat_map (fun p => trace (EI_partition self p))
                              (generate_partitions (node_indices self))).
  { rewrite <- mip_items_trace. unfold find_mip. rewrite Hgen.
    fold (mip_items self (mkPartition [node_indices self] :: ps)).
    unfold mip_items in *. cbn [map] in HF |- *.
    apply (py_min_trace (@Mip_lt Network num _) mip_ltb HF).
    intros a b Ha Hb.
    change (mip_of self (mkPartition [node_indices self]) :: map (mip_of self) ps)
      with (map (mip_of self) (mkPartition [node_indices self] :: ps)) in Ha, Hb.
    apply in_map_iff in Ha as (pa & <- & Ha), Hb as (pb & <- & Hb).
    destruct (Hvalid pa Ha) as (_ & _ & na & Hna & _).
    destruct (Hvalid pb Hb) as (_ & _ & nb & Hnb & _).
    apply (@Mip_lt_pure _ _ _ (mip_of self pa) (mip_of self pb) na nb Hna Hnb). }
  assert (Heach : flat_map (fun p => trace (EI_partition self p))
                           (generate_partitions (node_indices self))
                  = flat_map (fun p =>
                      PosteriorComputed (node_indices self)
                      :: (if is_total p then [PriorComputed (node_indices self)]
                          else map PosteriorComputed (parts p)))
                      (generate_partitions (node_indices self))).
  { rewrite !flat_map_concat_map. f_equal. apply map_ext_in.
    intros p Hp. now apply generated_requests. }
  rewrite Htrace, Heach. split; [reflexivity|].
  rewrite Hgen. cbn [flat_map is_total Partition_len parts length Nat.eqb].
  cbn [length app].
  rewrite (@flat_map_length_const _ _ _ 3 ps).
  - rewrite Hlen.
    pose proof (pow2_pos (length (node_indices self) - 1)). lia.
  - intros p Hp. rewrite (Hrest p Hp). cbn [length]. rewrite length_map.
    assert (Hin : In p (generate_partitions (node_indices self)))
      by (rewrite Hgen; now right).
    destruct (generated_cases _ _ Hin)
      as [[_ ->]|(i & a & b & _ & _ & _ & _ & _ & ->)].
    + specialize (Hrest _ Hp). discriminate.
    + now destruct (Partition_new_pair a b) as [-> | ->].
Qed.

Lemma phi_run (self : Subsystem) :
  trace (Phi self) = trace (mip self)
  /\ outcome (Phi self) = match outcome (mip self) with
                          | Ok m => Ok (ei m)
                          | Raise e => Raise e
                          end.
Proof.
  unfold phi. split; [apply trace_bind_ret | apply outcome_bind_ret].
Qed.

(** X10. [phi] makes the requests of [find_mip] and raises what it
    raises.  What it returns is the effective information itself, not
    divided by the normalization, across a generated partition whose Mip
    no other generated Mip is smaller than.  On a non-empty node sequence
    that is not ascending it raises AssertionError before any request. *)
Theorem phi_minimum (self : Subsystem) :
  trace (Phi self) = trace (mip self)
  /\ (forall e, outcome (mip self) = Raise e -> outcome (Phi self) = Raise e)
  /\ (forall v,
        outcome (Phi self) = Ok v ->
        exists p,
          In p (generate_partitions (node_indices self))
          /\ outcome (mip self) = Ok (mkMip v p self)
          /\ outcome (EI_partition self p) = Ok v
          /\ forall q, In q (generate_partitions (node_indices self)) ->
               exists e, outcome (EI_partition self q) = Ok e
                         /\ outcome (Mip_lt (mkMip e q self) (mkMip v p self))
                            = Ok false)
  /\ (node_indices self <> [] -> ~ Sorted Z.le (node_indices self) ->
      Phi self = ([], Raise AssertionError)).
Proof.
  destruct (phi_run self) as (Htr & Hout).
  split; [exact Htr|]. split; [|split].
  - intros e He. now rewrite Hout, He.
  - intros v Hv. rewrite Hout in Hv.
    destruct (outcome (mip self)) as [m|e] eqn:Hm; [|discriminate].
    injection Hv as <-.
    destruct (proj1 (find_mip_returns_iff cause_repertoire
                       max_entropy_distribution multiply entropy self)
                    (ex_intro _ m Hm)) as (Hne & Hs).
    destruct (find_mip_split cause_repertoire max_entropy_distribution
                             multiply entropy self Hne Hs)
      as (pm & before & after & Hgen & Hout' & Hb & Ha).
    rewrite Hm in Hout'. injection Hout' as ->.
    assert (Hpm : In pm (generate_partitions (node_indices self))).
    { rewrite Hgen. apply in_or_app. right. now left. }
    exists pm. split; [exact Hpm|]. split; [reflexivity|].
    split; [now apply mip_of_run|].
    intros q Hq. exists (ei_of self q). split; [now apply mip_of_run|].
    change (mkMip (ei_of self q) q self) with (mip_of self q).
    change (mkMip (ei (mip_of self pm)) pm self) with (mip_of self pm).
    rewrite Mip_lt_generated by assumption. f_equal.
    rewrite Hgen in Hq. apply in_app_or in Hq as [Hq|[<-|Hq]].
    + destruct (mip_ltb (mip_of self q) (mip_of self pm)) eqn:E; [|reflexivity].
      rewrite <- (mip_ltb_irrefl (mip_of self q)). symmetry.
      apply mip_ltb_trans with (mip_of self pm); auto.
    + apply mip_ltb_irrefl.
    + now apply Ha.
  - intros Hne Hns. unfold phi.
    now rewrite (find_mip_unsorted cause_repertoire max_entropy_distribution
                                   multiply entropy self Hne Hns).
Qed.

(** X11. A subsystem of one node has the total partition only:
    [find_mip] returns its Mip after one posterior and one prior request,
    and [phi] is [effective_information] of the whole system. *)
Theorem single_node_phi (self : Subsystem) (x : Z) :
  node_indices self = [x] ->
  mip self
  = ([PosteriorComputed [x]; PriorComputed [x]],
     Ok (mkMip (entropy (posterior_of self [x]) (max_entropy_distribution [x] 1))
               (mkPartition [[x]]) self))
  /\ Phi self = EI self None.
Proof.
  intros E.
  assert (Hgen : generate_partitions (node_indices self) = [mkPartition [[x]]])
    by now rewrite E.
  assert (Hei : EI_partition self (mkPartition [[x]]) = EI self None).
  { apply EI_partition_total; [now rewrite E | reflexivity]. }
  assert (Hrun : EI self None
                 = ([PosteriorComputed [x]; PriorComputed [x]],
                    Ok (entropy (posterior_of self [x])
                                (max_entropy_distribution [x] 1)))).
  { rewrite effective_information_run. unfold Subsystem_len.
    cbn [default_mechanism]. now rewrite E. }
  assert (Hmip : mip self
                 = ([PosteriorComputed [x]; PriorComputed [x]],
                    Ok (mkMip (entropy (posterior_of self [x])
                                       (max_entropy_distribution [x] 1))
                              (mkPartition [[x]]) self))).
  { unfold find_mip. rewrite Hgen. cbn [map py_min min_loop].
    rewrite Hei, Hrun. reflexivity. }
  split; [exact Hmip|].
  unfold phi. rewrite Hmip, Hrun. reflexivity.
Qed.
End SubsystemMore.

(** ** Comparing Mips *)

Lemma Partition_eq_true (p q : Partition) : Partition_eq p q = true <-> p = q.
Proof.
  unfold Partition_eq. rewrite parts_eqb_eq.
  destruct p as [ps], q as [qs]; cbn [parts]. split; congruence.
Qed.

Section MipOrder.
Variables Network num : Type.
Context `{Number num}.

Local Abbreviation Mip := (Mip_2_0 Network num).

(** X12. [==] on Mips is an equivalence: it holds when the effective
    informations are [==] and the partitions are the same, whatever the
    subsystems are. *)
Theorem Mip_eq_equivalence (a b c : Mip) :
  Mip_eq a a = true
  /\ Mip_eq a b = Mip_eq b a
  /\ (Mip_eq a b = true -> Mip_eq b c = true -> Mip_eq a c = true)
  /\ (Mip_eq a b = true <->
      num_eqb (ei a) (ei b) = true /\ partition a = partition b)
  /\ (forall s, Mip_eq a (mkMip (ei a) (partition a) s) = true).
Proof.
  assert (Hiff : forall x y : Mip,
             Mip_eq x y = true <->
             num_eqb (ei x) (ei y) = true /\ partition x = partition y).
  { intros x y. unfold Mip_eq.
    now rewrite andb_true_iff, Partition_eq_true. }
  assert (Hrefl : forall x : Mip, Mip_eq x x = true).
  { intros x. apply Hiff. split; [apply num_eqb_refl | reflexivity]. }
  split; [apply Hrefl|]. split; [|split; [|split]].
  - destruct (Mip_eq a b) eqn:E1, (Mip_eq b a) eqn:E2; try reflexivity.
    + apply Hiff in E1 as [E E']. rewrite <- E2. symmetry. apply Hiff.
      split; [now rewrite num_eqb_sym | now symmetry].
    + apply Hiff in E2 as [E E']. rewrite <- E1. apply Hiff.
      split; [now rewrite num_eqb_sym | now symmetry].
  - rewrite !Hiff. intros [E1 P1] [E2 P2].
    split; [eapply num_eqb_trans; eauto | congruence].
  - apply Hiff.
  - intros s. apply Hiff. split; [apply num_eqb_refl | reflexivity].
Qed.

Lemma Mip_lt_tie (a b : Mip) na nb :
  normalization (partition a) = ret na ->
  normalization (partition b) = ret nb ->
  num_eqb (num_div (ei a) na) (num_div (ei b) nb) = true ->
  num_eqb (ei a) (ei b) = true ->
  Mip_lt a b = ret false.
Proof.
  intros Hna Hnb E1 E2. rewrite (Mip_lt_run _ _ Hna Hnb). f_equal.
  destruct (key_ltb (num_div (ei a) na, ei a) (num_div (ei b) nb, ei b)) eqn:E;
    [|reflexivity].
  apply key_ltb_spec in E. cbn [fst snd] in E.
  rewrite (num_ltb_irrefl _ _ E1), (num_ltb_irrefl _ _ E2) in E.
  intuition discriminate.
Qed.

(** X13. On Mips whose partitions have a normalization of at least 1, as
    every generated partition has, [<] is a strict weak order:
    irreflexive, asymmetric and transitive, and [not <] is transitive too;
    of two Mips at least one is [>=] the other.  A normalization of 0
    is left out: dividing by it gives no number that the order laws
    cover. *)
Theorem Mip_lt_strict_weak_order (a b c : Mip) (na nb nc : Z) :
  normalization (partition a) = ret na ->
  normalization (partition b) = ret nb ->
  normalization (partition c) = ret nc ->
  (1 <= na)%Z -> (1 <= nb)%Z -> (1 <= nc)%Z ->
  Mip_lt a a = ret false
  /\ (Mip_lt a b = ret true -> Mip_lt b a = ret false)
  /\ (Mip_lt a b = ret true -> Mip_lt b c = ret true -> Mip_lt a c = ret true)
  /\ (Mip_lt a b = ret false -> Mip_lt b c = ret false ->
      Mip_lt a c = ret false)
  /\ (Mip_ge a b = ret true \/ Mip_ge b a = ret true).
Proof.
  intros Ha Hb Hc _ _ _. unfold Mip_ge.
  rewrite (Mip_lt_pure a a Ha Ha), (Mip_lt_pure a b Ha Hb),
    (Mip_lt_pure b a Hb Ha), (Mip_lt_pure b c Hb Hc), (Mip_lt_pure a c Ha Hc).
  rewrite !bind_ret_l. unfold mip_ltb.
  assert (Hinj : forall x y : bool, ret x = ret y -> x = y)
    by (intros x y [= E]; exact E).
  assert (Hasym : key_ltb (mip_key a) (mip_key b) = true ->
                  key_ltb (mip_key b) (mip_key a) = false).
  { intros E. destruct (key_ltb (mip_key b) (mip_key a)) eqn:E'; [|reflexivity].
    rewrite <- (key_ltb_irrefl (mip_key a)). symmetry.
    now apply key_ltb_trans with (mip_key b). }
  split; [now rewrite key_ltb_irrefl|]. split; [|split; [|split]].
  - intros E. apply Hinj in E. now rewrite Hasym.
  - intros E1 E2. apply Hinj in E1, E2.
    now rewrite (key_ltb_trans _ _ _ E1 E2).
  - intros E1 E2. apply Hinj in E1, E2.
    destruct (key_ltb (mip_key a) (mip_key c)) eqn:E; [|reflexivity].
    destruct (key_ltb_cotrans _ _ (mip_key b) E) as [E'|E']; congruence.
  - destruct (key_ltb (mip_key a) (mip_key b)) eqn:E; [right | now left].
    now rewrite Hasym.
Qed.

(** X14. When division by an int respects [==], Mips that are [==] are
    not ordered by [<] either way, and the derived comparisons agree with
    that: [<=] holds and [>] does not. *)
Theorem Mip_eq_not_lt (a b : Mip) (n : Z) :
  (forall x y m, num_eqb x y = true ->
                 num_eqb (num_div x m) (num_div y m) = true) ->
  normalization (partition a) = ret n ->
  Mip_eq a b = true ->
  Mip_lt a b = ret false /\ Mip_lt b a = ret false
  /\ Mip_le a b = ret true /\ Mip_gt a b = ret false.
Proof.
  intros Hdiv Hn Heq. unfold Mip_le, Mip_gt, Mip_ne. rewrite Heq.
  unfold Mip_eq in Heq. apply andb_true_iff in Heq as [E P].
  apply Partition_eq_true in P.
  assert (Hn' : normalization (partition b) = ret n) by now rewrite <- P.
  assert (E' : num_eqb (ei b) (ei a) = true) by now rewrite num_eqb_sym.
  rewrite (Mip_lt_tie a b Hn Hn' (Hdiv _ _ n E) E).
  rewrite (Mip_lt_tie b a Hn' Hn (Hdiv _ _ n E') E').
  rewrite !bind_ret_l. repeat split.
Qed.

(** X15. Two Mips that tie on both keys but have different partitions are
    neither [<] nor [==], so [<=] fails both ways while [>] and [>=] hold
    both ways: the derived comparisons of such Mips contradict each
    other. *)
Theorem Mip_tie_comparisons (a b : Mip) (na nb : Z) :
  normalization (partition a) = ret na ->
  normalization (partition b) = ret nb ->
  num_eqb (num_div (ei a) na) (num_div (ei b) nb) = true ->
  num_eqb (ei a) (ei b) = true ->
  Partition_eq (partition a) (partition b) = false ->
  Mip_lt a b = ret false /\ Mip_lt b a = ret false
  /\ Mip_eq a b = false
  /\ Mip_le a b = ret false /\ Mip_le b a = ret false
  /\ Mip_gt a b = ret true /\ Mip_gt b a = ret true
  /\ Mip_ge a b = ret true /\ Mip_ge b a = ret true.
Proof.
  intros Hna Hnb E1 E2 P.
  assert (E1' : num_eqb (num_div (ei b) nb) (num_div (ei a) na) = true)
    by now rewrite num_eqb_sym.
  assert (E2' : num_eqb (ei b) (ei a) = true) by now rewrite num_eqb_sym.
  assert (P' : Partition_eq (partition b) (partition a) = false).
  { destruct (Partition_eq (partition b) (partition a)) eqn:E; [|reflexivity].
    apply Partition_eq_true in E. rewrite <- P. symmetry.
    now apply Partition_eq_true. }
  unfold Mip_le, Mip_gt, Mip_ge, Mip_ne, Mip_eq.
  rewrite (Mip_lt_tie a b Hna Hnb E1 E2), (Mip_lt_tie b a Hnb Hna E1' E2').
  rewrite !bind_ret_l, P, P', E2, E2'. repeat split.
Qed.
End MipOrder.

Lemma Mip_eq_equivalence_witness :
  Mip_eq (mkMip (1 # 2)%Q (mkPartition [[0; 1]]%Z) Independent.two_nodes)
         (mkMip (2 # 4)%Q (mkPartition [[0; 1]]%Z) Independent.two_nodes) = true
  /\ Mip_eq (mkMip (2 # 4)%Q (mkPartition [[0; 1]]%Z) Independent.two_nodes)
            (mkMip (3 # 6)%Q (mkPartition [[0; 1]]%Z) Independent.two_nodes) = true
  /\ Mip_eq (mkMip (1 # 2)%Q (mkPartition [[0; 1]]%Z) Independent.two_nodes)
            (mkMip (3 # 6)%Q (mkPartition [[0; 1]]%Z) Independent.two_nodes) = true.
Proof.
  assert (Hab : Mip_eq (mkMip (1 # 2)%Q (mkPartition [[0; 1]]%Z)
                              Independent.two_nodes)
                       (mkMip (2 # 4)%Q (mkPartition [[0; 1]]%Z)
                              Independent.two_nodes) = true) by reflexivity.
  assert (Hbc : Mip_eq (mkMip (2 # 4)%Q (mkPartition [[0; 1]]%Z)
                              Independent.two_nodes)
                       (mkMip (3 # 6)%Q (mkPartition [[0; 1]]%Z)
                              Independent.two_nodes) = true) by reflexivity.
  split; [exact Hab|]. split; [exact Hbc|].
  destruct (@Mip_eq_equivalence
              unit Q Q_Number
              (mkMip (1 # 2)%Q (mkPartition [[0; 1]]%Z) Independent.two_nodes)
              (mkMip (2 # 4)%Q (mkPartition [[0; 1]]%Z) Independent.two_nodes)
              (mkMip (3 # 6)%Q (mkPartition [[0; 1]]%Z) Independent.two_nodes))
    as (_ & _ & Htrans & _).
  exact (Htrans Hab Hbc).
Defined.

Lemma Mip_lt_strict_weak_order_witness :
  normalization (mkPartition [[0; 1]]%Z) = ret 2%Z
  /\ normalization (mkPartition [[0]; [1]]%Z) = ret 1%Z
  /\ (1 <= 2)%Z /\ (1 <= 1)%Z
  /\ Mip_lt (mkMip (1 # 2)%Q (mkPartition [[0; 1]]%Z) Independent.two_nodes)
            (mkMip (1 # 3)%Q (mkPartition [[0]; [1]]%Z) Independent.two_nodes)
     = ret true
  /\ Mip_lt (mkMip (1 # 3)%Q (mkPartition [[0]; [1]]%Z) Independent.two_nodes)
            (mkMip (1 # 2)%Q (mkPartition [[0; 1]]%Z) Independent.two_nodes)
     = ret false.
Proof.
  assert (Ha : normalization (mkPartition [[0; 1]]%Z) = ret 2%Z) by reflexivity.
  assert (Hb : normalization (mkPartition [[0]; [1]]%Z) = ret 1%Z) by reflexivity.
  split; [exact Ha|]. split; [exact Hb|].
  split; [lia|]. split; [lia|]. split; [reflexivity|].
  destruct (@Mip_lt_strict_weak_order
              unit Q Q_Number
              (mkMip (1 # 2)%Q (mkPartition [[0; 1]]%Z) Independent.two_nodes)
              (mkMip (1 # 3)%Q (mkPartition [[0]; [1]]%Z) Independent.two_nodes)
              (mkMip (1 # 2)%Q (mkPartition [[0; 1]]%Z) Independent.two_nodes)
              2%Z 1%Z 2%Z Ha Hb Ha) as (_ & Hasym & _); try lia.
  apply Hasym. reflexivity.
Defined.

Lemma Q_div_respects_eq (x y : Q) (m : Z) :
  num_eqb x y = true -> num_eqb (num_div x m) (num_div y m) = true.
Proof.
  cbn [num_eqb num_div Q_Number]. unfold Q_div.
  rewrite !Qeq_bool_iff. now intros ->.
Qed.

Lemma Mip_eq_not_lt_witness :
  normalization (mkPartition [[0; 1]]%Z) = ret 2%Z
  /\ Mip_eq (mkMip (1 # 2)%Q (mkPartition [[0; 1]]%Z) Independent.two_nodes)
            (mkMip (2 # 4)%Q (mkPartition [[0; 1]]%Z) Independent.two_nodes) = true
  /\ Mip_lt (mkMip (1 # 2)%Q (mkPartition [[0; 1]]%Z) Independent.two_nodes)
            (mkMip (2 # 4)%Q (mkPartition [[0; 1]]%Z) Independent.two_nodes)
     = ret false.
Proof.
  assert (Hn : normalization (mkPartition [[0; 1]]%Z) = ret 2%Z) by reflexivity.
  split; [exact Hn|]. split; [reflexivity|].
  destruct (@Mip_eq_not_lt
              unit Q Q_Number
              (mkMip (1 # 2)%Q (mkPartition [[0; 1]]%Z) Independent.two_nodes)
              (mkMip (2 # 4)%Q (mkPartition [[0; 1]]%Z) Independent.two_nodes)
              2%Z Q_div_respects_eq Hn eq_refl) as (Hlt & _).
  exact Hlt.
Defined.

(** The two Mips that [find_mip] compares on the two independent nodes. *)
Lemma Mip_tie_comparisons_witness :
  Mip_gt (mkMip 0%Q (mkPartition [[0; 1]]%Z) Independent.two_nodes)
         (mkMip 0%Q (mkPartition [[0]; [1]]%Z) Independent.two_nodes) = ret true
  /\ Mip_gt (mkMip 0%Q (mkPartition [[0]; [1]]%Z) Independent.two_nodes)
            (mkMip 0%Q (mkPartition [[0; 1]]%Z) Independent.two_nodes) = ret true.
Proof.
  assert (Ha : normalization (mkPartition [[0; 1]]%Z) = ret 2%Z) by reflexivity.
  assert (Hb : normalization (mkPartition [[0]; [1]]%Z) = ret 1%Z) by reflexivity.
  destruct (@Mip_tie_comparisons
              unit Q Q_Number
              (mkMip 0%Q (mkPartition [[0; 1]]%Z) Independent.two_nodes)
              (mkMip 0%Q (mkPartition [[0]; [1]]%Z) Independent.two_nodes)
              2%Z 1%Z Ha Hb)
    as (_ & _ & _ & _ & _ & Hab & Hba & _); try reflexivity.
  split; [exact Hab | exact Hba].
Defined.

Lemma two_nodes_ascending : Sorted Z.le (node_indices Independent.two_nodes).
Proof. repeat constructor. discriminate. Defined.

Lemma effective_information_partition_split_witness :
  indices (mkPartition [[0]; [1]]%Z) = node_indices Independent.two_nodes
  /\ is_total (mkPartition [[0]; [1]]%Z) = false
  /\ trace (Independent.EI_partition Independent.two_nodes
                                     (mkPartition [[0]; [1]]%Z))
     = [PosteriorComputed [0; 1]%Z; PosteriorComputed [0]%Z;
        PosteriorComputed [1]%Z].
Proof.
  split; [reflexivity|]. split; [reflexivity|].
  apply (@effective_information_partition_split
           unit (list Q) Q Independent.cause_repertoire
           Independent.max_entropy_distribution Independent.multiply
           Independent.divergence Independent.two_nodes
           (mkPartition [[0]; [1]]%Z)); reflexivity.
Defined.

Lemma find_mip_requests_witness :
  node_indices Independent.two_nodes <> []
  /\ Sorted Z.le (node_indices Independent.two_nodes)
  /\ length (trace (Independent.mip Independent.two_nodes)) = 5.
Proof.
  assert (Hne : node_indices Independent.two_nodes <> []) by discriminate.
  split; [exact Hne|]. split; [exact two_nodes_ascending|].
  apply (@find_mip_requests
           unit (list Q) Q Q_Number Independent.cause_repertoire
           Independent.max_entropy_distribution Independent.multiply
           Independent.divergence Independent.two_nodes Hne two_nodes_ascending).
Defined.

Lemma phi_minimum_witness :
  outcome (phi Independent.cause_repertoire Independent.max_entropy_distribution
               Independent.multiply Independent.divergence Independent.two_nodes)
  = Ok (ei two_nodes_result)
  /\ exists p, In p (generate_partitions [0; 1]%Z)
               /\ outcome (Independent.EI_partition Independent.two_nodes p)
                  = Ok (ei two_nodes_result).
Proof.
  assert (Hv : outcome (phi Independent.cause_repertoire
                            Independent.max_entropy_distribution
                            Independent.multiply Independent.divergence
                            Independent.two_nodes)
               = Ok (ei two_nodes_result)) by (vm_compute; reflexivity).
  split; [exact Hv|].
  destruct (@phi_minimum
              unit (list Q) Q Q_Number Independent.cause_repertoire
              Independent.max_entropy_distribution Independent.multiply
              Independent.divergence Independent.two_nodes)
    as (_ & _ & Hmin & _).
  destruct (Hmin (ei two_nodes_result) Hv) as (p & Hin & _ & Hp & _).
  exists p. split; [exact Hin | exact Hp].
Defined.

Lemma single_node_phi_witness :
  node_indices (mkSubsystem tt [1]%Z [0]%Z) = [0]%Z
  /\ phi Independent.cause_repertoire Independent.max_entropy_distribution
         Independent.multiply Independent.divergence (mkSubsystem tt [1]%Z [0]%Z)
     = effective_information Independent.cause_repertoire
                             Independent.max_entropy_distribution
                             Independent.divergence
                             (mkSubsystem tt [1]%Z [0]%Z) None.
Proof.
  split; [reflexivity|].
  apply (@single_node_phi
           unit (list Q) Q Q_Number Independent.cause_repertoire
           Independent.max_entropy_distribution Independent.multiply
           Independent.divergence (mkSubsystem tt [1]%Z [0]%Z) 0%Z).
  reflexivity.
Defined.

(** ** Bounds on the relative entropy *)

Section EntropyBounds.
Local Open Scope R_scope.

Lemma Rsum_bounds_items (p : list R) :
  Forall (Rle 0) p -> 0 <= Rsum p /\ Forall (fun x => x <= Rsum p) p.
Proof.
  induction 1 as [|x p Hx _ [IH0 IH]]; cbn [Rsum fold_right].
  - split; [lra | constructor].
  - fold (Rsum p). split; [lra|]. constructor; [lra|].
    apply Forall_forall. intros y Hy.
    rewrite Forall_forall in IH. specialize (IH y Hy). lra.
Qed.

Lemma rel_entr_upper x c :
  0 <= x <= 1 -> 0 < c ->
  exists t, rel_entr x c = Finite t /\ t <= x * - ln c.
Proof.
  intros [Hx0 Hx1] Hc. unfold rel_entr.
  destruct (Rlt_dec 0 x) as [Hpos|Hnpos].
  - destruct (Rlt_dec 0 c) as [_|]; [|contradiction].
    exists (x * ln (x / c)). split; [reflexivity|].
    unfold Rdiv. rewrite ln_mult, ln_Rinv by (try apply Rinv_0_lt_compat; lra).
    assert (ln x <= 0).
    { destruct (Req_dec_T x 1) as [->|Hne]; [rewrite ln_1; lra|].
      rewrite <- ln_1. apply Rlt_le, ln_increasing; lra. }
    nra.
  - destruct (Req_dec_T x 0) as [->|]; [|lra].
    destruct (Rle_dec 0 c) as [_|]; [|lra].
    exists 0. split; [reflexivity | lra].
Qed.

Lemma relative_entropy_upper (c : R) (p : list R) : forall n,
  length p = n -> Forall (fun x => 0 <= x <= 1) p -> 0 < c ->
  exists s,
    xsum (map (fun xy => rel_entr (fst xy) (snd xy)) (combine p (repeat c n)))
    = Finite s
    /\ s <= Rsum p * - ln c.
Proof.
  induction p as [|x p IH]; intros n Hlen Hp Hc; subst n.
  - exists 0. simpl. split; [reflexivity | lra].
  - inversion Hp as [|? ? Hx Hp']; subst.
    destruct (@IH (length p) eq_refl Hp' Hc) as (s & Hs & Hle).
    destruct (rel_entr_upper Hx Hc) as (t & Ht & Htle).
    exists (t + s). cbn [length repeat combine map xsum fold_right fst snd Rsum].
    fold (xsum (map (fun xy => rel_entr (fst xy) (snd xy))
                    (combine p (repeat c (length p))))).
    fold (Rsum p). rewrite Ht, Hs. split; [reflexivity | lra].
Qed.

Lemma ln_pow2 k : ln (INR (2 ^ k)) = INR k * ln 2.
Proof.
  rewrite pow_INR. change (INR 2) with 2. apply ln_pow. lra.
Qed.

(** The relative entropy of a distribution over the states of [k] nodes
    against the uniform one is at most [k] bits. *)
Lemma entropy_bits_upper (mechanism : list Z) (n : nat) (p : list R) :
  distribution (length mechanism) p ->
  exists v, entropy_bits p (uniform_distribution mechanism n) = Finite v
            /\ v <= INR (length mechanism).
Proof.
  intros (Hlen & Hpos & Hsum).
  destruct (uniform_distribution_spec mechanism n) as ((_ & _ & Husum) & _).
  unfold entropy_bits. rewrite !normalize_unit by assumption.
  pose proof (pow2_INR_pos (length mechanism)) as HN.
  assert (Hc : 0 < 1 / INR (2 ^ length mechanism))
    by (apply Rdiv_lt_0_compat; lra).
  assert (H01 : Forall (fun x => 0 <= x <= 1) p).
  { destruct (Rsum_bounds_items Hpos) as (_ & Hle).
    rewrite Hsum in Hle. rewrite Forall_forall in *.
    intros x Hx. split; auto. }
  unfold uniform_distribution.
  destruct (@relative_entropy_upper (1 / INR (2 ^ length mechanism)) p
                                   (2 ^ length mechanism)%nat Hlen H01 Hc)
    as (s & Hs & Hle).
  rewrite Hs. exists (s / ln 2). split; [reflexivity|].
  rewrite Hsum in Hle.
  assert (Hln : - ln (1 / INR (2 ^ length mechanism))
                = INR (length mechanism) * ln 2).
  { unfold Rdiv. rewrite Rmult_1_l, ln_Rinv by exact HN.
    rewrite ln_pow2. lra. }
  rewrite Hln in Hle. pose proof ln2_pos as H2.
  apply Rmult_le_reg_r with (ln 2); [exact H2|].
  unfold Rdiv. rewrite Rmult_assoc, Rinv_l by lra. lra.
Qed.

(** A distribution has no relative entropy against itself. *)
Lemma entropy_bits_self (p : list R) :
  Forall (Rle 0) p -> Rsum p = 1 -> entropy_bits p p = Finite 0.
Proof.
  intros Hpos Hsum. unfold entropy_bits. rewrite normalize_unit by exact Hsum.
  assert (Hs : xsum (map (fun xy => rel_entr (fst xy) (snd xy)) (combine p p))
               = Finite 0).
  { clear Hsum. induction Hpos as [|x p Hx _ IH]; [reflexivity|].
    cbn [combine map xsum fold_right fst snd].
    fold (xsum (map (fun xy => rel_entr (fst xy) (snd xy)) (combine p p))).
    rewrite IH.
    assert (Hxx : rel_entr x x = Finite 0).
    { destruct (Rlt_dec 0 x) as [Hp|Hn]; [now apply rel_entr_same|].
      assert (x = 0) by lra. subst x. unfold rel_entr.
      destruct (Rlt_dec 0 0); [lra|].
      destruct (Req_dec_T 0 0); [|congruence].
      destruct (Rle_dec 0 0); [reflexivity | lra]. }
    rewrite Hxx. simpl. f_equal. lra. }
  rewrite Hs. simpl. f_equal. pose proof ln2_pos. field. lra.
Qed.
End EntropyBounds.

(** X16. When the causal model gives a probability distribution over the
    joint states of a mechanism of k nodes, [effective_information] of the
    mechanism lies between 0 and k bits. *)
Theorem effective_information_at_most_bits
        (Network : Type)
        (cause_repertoire :
           Network -> list Z -> list Z -> list Z -> list Z -> list R)
        (self : Subsystem_2_0 Network) (mechanism : option (list Z)) :
  distribution
    (length (default_mechanism self mechanism))
    (cause_repertoire (network self) (state self) (node_indices self)
                      (default_mechanism self mechanism)
                      (default_mechanism self mechanism)) ->
  exists v,
    outcome (effective_information cause_repertoire uniform_distribution
                                   entropy_bits self mechanism)
    = Ok (Finite v)
    /\ (0 <= v <= INR (length (default_mechanism self mechanism)))%R.
Proof.
  intros Hd. pose proof Hd as (Hlen & Hpos & Hsum).
  destruct (uniform_distribution_spec (default_mechanism self mechanism)
                                      (Subsystem_len self))
    as ((Hulen & _ & Husum) & Hupos).
  destruct (@entropy_bits_bound
              (cause_repertoire (network self) (state self) (node_indices self)
                                (default_mechanism self mechanism)
                                (default_mechanism self mechanism))
              (uniform_distribution (default_mechanism self mechanism)
                                    (Subsystem_len self)))
    as (v & Hv & Hle & _); try assumption; [congruence|].
  destruct (entropy_bits_upper (default_mechanism self mechanism)
                               (Subsystem_len self) Hd) as (v' & Hv' & Hup).
  rewrite Hv in Hv'. injection Hv' as <-.
  exists v. rewrite effective_information_run. cbn [outcome snd].
  unfold posterior_of. rewrite Hv. split; [reflexivity|]. split; assumption.
Qed.

Lemma effective_information_at_most_bits_witness :
  distribution 1 [1%R; 0%R]
  /\ exists v,
       outcome (effective_information certain uniform_distribution entropy_bits
                                      (mkSubsystem tt [1]%Z [0]%Z) None)
       = Ok (Finite v)
       /\ (v <= 1)%R.
Proof.
  assert (Hd : distribution 1 [1%R; 0%R]).
  { unfold distribution. split; [reflexivity|]. split.
    - repeat constructor; lra.
    - simpl. lra. }
  split; [exact Hd|].
  destruct (@effective_information_at_most_bits
              unit certain (mkSubsystem tt [1]%Z [0]%Z) None Hd)
    as (v & Hv & _ & Hle).
  exists v. split; [exact Hv | exact Hle].
Defined.

(** X17. What the special case of the total partition avoids: the
    partitioned posterior repertoire of the partition whose one group is
    the node sequence is the posterior repertoire of the whole system, so
    the entropy of the one against the other, the computation of the
    other branch, is 0 bits. *)
Theorem total_partition_literal_zero
        (Network : Type)
        (cause_repertoire :
           Network -> list Z -> list Z -> list Z -> list Z -> list R)
        (multiply : list R -> list R -> list R)
        (self : Subsystem_2_0 Network) :
  Forall (Rle 0%R) (posterior_of cause_repertoire self (node_indices self)) ->
  Rsum (posterior_of cause_repertoire self (node_indices self)) = 1%R ->
  partitioned_posterior_repertoire cause_repertoire multiply self
                                   (mkPartition [node_indices self])
  = ([PosteriorComputed (node_indices self)],
     Ok (posterior_of cause_repertoire self (node_indices self)))
  /\ outcome
       (pk <- posterior_repertoire cause_repertoire self None ;;
        qk <- partitioned_posterior_repertoire
                cause_repertoire multiply self
                (mkPartition [node_indices self]) ;;
        ret (entropy_bits pk qk))
     = Ok (Finite 0).
Proof.
  intros Hpos Hsum.
  assert (Hp : partitioned_posterior_repertoire
                 cause_repertoire multiply self
                 (mkPartition [node_indices self])
               = ([PosteriorComputed (node_indices self)],
                  Ok (posterior_of cause_repertoire self (node_indices self))))
    by reflexivity.
  split; [exact Hp|].
  rewrite posterior_repertoire_run, Hp. cbn [default_mechanism].
  cbn [bind ret outcome snd app]. now rewrite entropy_bits_self.
Qed.

Lemma total_partition_literal_zero_witness :
  Forall (Rle 0%R) [1%R; 0%R] /\ Rsum [1%R; 0%R] = 1%R
  /\ outcome
       (pk <- posterior_repertoire certain (mkSubsystem tt [1]%Z [0]%Z) None ;;
        qk <- partitioned_posterior_repertoire
                certain (fun p q => map (fun xy => (fst xy * snd xy)%R)
                                        (combine p q))
                (mkSubsystem tt [1]%Z [0]%Z) (mkPartition [[0]]%Z) ;;
        ret (entropy_bits pk qk))
     = Ok (Finite 0).
Proof.
  assert (Hpos : Forall (Rle 0%R) [1%R; 0%R]) by (repeat constructor; lra).
  assert (Hsum : Rsum [1%R; 0%R] = 1%R) by (simpl; lra).
  split; [exact Hpos|]. split; [exact Hsum|].
  apply (@total_partition_literal_zero
           unit certain
           (fun p q => map (fun xy => (fst xy * snd xy)%R) (combine p q))
           (mkSubsystem tt [1]%Z [0]%Z) Hpos Hsum).
Defined.
